(** * fibre-cpp: runtime introspection (include/fibre/introspection.hpp)

    A shallow embedding of [PropertyInfo], [TypeInfo], [Introspectable] and
    the [FibrePropertyTypeInfo] adapters, followed by the properties of the
    lookup, of the path traversal and of the string accessors.

    Conventions of the embedding:
    - a [const char*] into the caller's path buffer is a view [nat -> ascii]
      of the memory that starts at [path], plus an offset into it;
    - a [const TypeInfo*] is [option TypeInfoRef]: [None] is [nullptr] and
      [Some r] is the address of a statically allocated descriptor, read
      through [static_data];
    - application memory reachable through a handle is an abstract world [W];
      getters and hooks are functions on it;
    - the code is run in a small monad that threads the world and an event
      log (path bytes examined, lookups, getter and hook invocations), so
      that "is never examined" and "is never invoked" are statements about
      the log. *)

From Stdlib Require Import List String Ascii ZArith Lia Bool Arith.
From Stdlib Require Strings.Byte.
Import ListNotations.

Local Open Scope nat_scope.

(** ** Events *)

(** Address of a statically allocated [TypeInfo] object. *)
Definition TypeInfoRef := nat.

Inductive Event : Type :=
| EvRead (i : nat)                               (* path[i] was examined *)
| EvLookup (this : TypeInfoRef) (tok len : nat)  (* get_property_info(path + tok, len) on *this *)
| EvGetter (prop : string)                       (* prop->getter called on current *)
| EvGetString (this : TypeInfoRef)               (* virtual get_string of *this *)
| EvSetString (this : TypeInfoRef).              (* virtual set_string of *this *)

Definition is_read (e : Event) : bool :=
  match e with EvRead _ => true | _ => false end.

Definition NUL : ascii := "000"%char.
Definition DOT : ascii := "."%char.

(** The bytes of a C string literal, seen as memory: the literal's characters
    followed by zero bytes. *)
Definition c_str (s : string) : nat -> ascii :=
  fun i => match String.get i s with Some c => c | None => NUL end.

(** ** Data model and execution monad *)

Section Model.

(** Application memory (the objects the handles point into). *)
Variable W : Type.

(** class Introspectable: [unsigned char storage_[12]] and
    [const TypeInfo* type_info_]. *)
Record Introspectable : Type := mkIntrospectable {
  storage_ : list Byte.byte;
  type_info_ : option TypeInfoRef
}.

(** struct PropertyInfo.  The getter receives the handle by reference; it
    may rewrite it and touch application memory. *)
Record PropertyInfo : Type := mkPropertyInfo {
  name : string;
  getter : Introspectable -> W -> Introspectable * W;
  type_info : option TypeInfoRef
}.

(** class TypeInfo.  [property_table_] and [property_table_length_] are one
    list; the two virtual member functions are the fields of the record.
    A buffer is passed by value and, for [get_string], handed back. *)
Record TypeInfo : Type := mkTypeInfo {
  property_table_ : list PropertyInfo;
  vt_get_string : Introspectable -> list ascii -> nat -> W -> (bool * list ascii) * W;
  vt_set_string : Introspectable -> list ascii -> nat -> W -> bool * W
}.

(** TypeInfo::get_string and TypeInfo::set_string as the base class defines
    them: [{ return false; }]. *)
Definition TypeInfo_get_string
    (obj : Introspectable) (buffer : list ascii) (length : nat) (w : W)
  : (bool * list ascii) * W := ((false, buffer), w).

Definition TypeInfo_set_string
    (obj : Introspectable) (buffer : list ascii) (length : nat) (w : W)
  : bool * W := (false, w).

(** The constructor [TypeInfo(property_table, property_table_length)] of the
    base class: an object whose dynamic type is [TypeInfo] itself. *)
Definition TypeInfo_ctor (property_table : list PropertyInfo) : TypeInfo :=
  {| property_table_ := property_table;
     vt_get_string := TypeInfo_get_string;
     vt_set_string := TypeInfo_set_string |}.

(** Machine state: application memory and the event log (oldest first). *)
Record St : Type := mkSt { world : W; log : list Event }.

Definition add_log (s : St) (evs : list Event) : St :=
  {| world := world s; log := log s ++ evs |}.

(** State monad; [None] only ever means that a loop ran out of fuel. *)
Definition M (A : Type) : Type := St -> option (A * St).

Definition ret {A} (a : A) : M A := fun s => Some (a, s).

Definition bind {A B} (m : M A) (k : A -> M B) : M B :=
  fun s => match m s with
           | Some (a, s') => k a s'
           | None => None
           end.

Definition tell (e : Event) : M unit := fun s => Some (tt, add_log s [e]).

Definition lift_world {A} (f : W -> A * W) : M A :=
  fun s => let (a, w) := f (world s) in Some (a, {| world := w; log := log s |}).

Definition out_of_fuel {A} : M A := fun _ => None.

Notation "x <- m ;; k" := (bind m (fun x => k))
  (at level 61, m at next level, right associativity).
Notation "m ;;; k" := (bind m (fun _ => k))
  (at level 61, right associativity).

(** Dereference of the pointer [path + i] into the path buffer. *)
Definition read_path (path : nat -> ascii) (i : nat) : M ascii :=
  tell (EvRead i) ;;; ret (path i).

(** ** <algorithm> and <cstring> *)

(** std::find(first, last, value) over the path buffer:
    [for (; first != last; ++first) if (first[0] == value) return first;
     return last;]  [n] is [last - first]. *)
Fixpoint find_loop (path : nat -> ascii) (value : ascii) (n first : nat) : M nat :=
  match n with
  | 0 => ret first
  | S n' =>
      c <- read_path path first ;;
      if Ascii.eqb c value then ret first
      else find_loop path value n' (S first)
  end.

Definition std_find (path : nat -> ascii) (first last : nat) (value : ascii) : M nat :=
  find_loop path value (last - first) first.

Definition char_diff (c1 c2 : ascii) : Z :=
  (Z.of_nat (nat_of_ascii c1) - Z.of_nat (nat_of_ascii c2))%Z.

(** strncmp(s1, s2, n) with [s1 = path + s1] and [s2] a stored,
    null-terminated name: at most [n] characters are compared and the
    comparison stops after a common null. *)
Fixpoint strncmp (path : nat -> ascii) (s1 : nat) (s2 : string) (n : nat) : M Z :=
  match n with
  | 0 => ret 0%Z
  | S n' =>
      c1 <- read_path path s1 ;;
      let (c2, s2') := match s2 with
                       | EmptyString => (NUL, EmptyString)
                       | String c r => (c, r)
                       end in
      if Ascii.eqb c1 c2 then
        if Ascii.eqb c1 NUL then ret 0%Z
        else strncmp path (S s1) s2' n'
      else ret (char_diff c1 c2)
  end.

(** ** TypeInfo *)

(** The statically allocated descriptors of the program. *)
Variable static_data : TypeInfoRef -> TypeInfo.

(** The [for] loop of get_property_info over the remaining entries. *)
Fixpoint scan_table (path : nat -> ascii) (name_ length : nat)
    (table : list PropertyInfo) : M (option PropertyInfo) :=
  match table with
  | [] => ret None
  | prop :: rest =>
      r <- strncmp path name_ (name prop) length ;;
      if Z.eqb r 0 then ret (Some prop)
      else scan_table path name_ length rest
  end.

(** TypeInfo::get_property_info(name, length) on the object at [this]. *)
Definition get_property_info (this : TypeInfoRef)
    (path : nat -> ascii) (name_ length : nat) : M (option PropertyInfo) :=
  tell (EvLookup this name_ length) ;;;
  scan_table path name_ length (property_table_ (static_data this)).

(** ** Introspectable *)

Definition set_type_info (obj : Introspectable) (t : option TypeInfoRef)
  : Introspectable :=
  {| storage_ := storage_ obj; type_info_ := t |}.

(** The call through [prop_info->getter] with [current] as argument. *)
Definition call_getter (prop_info : PropertyInfo) (current : Introspectable)
  : M Introspectable :=
  tell (EvGetter (name prop_info)) ;;;
  lift_world (getter prop_info current).

(** The [while] loop of get_child.  Every iteration moves [begin] forward,
    so [end_ - begin] iterations are enough; [fuel] bounds them. *)
Fixpoint get_child_loop (fuel : nat) (path : nat -> ascii)
    (begin end_ : nat) (current : Introspectable) : M Introspectable :=
  if begin <? end_ then
    match type_info_ current with
    | None => ret current
    | Some ti =>
        match fuel with
        | 0 => out_of_fuel
        | S fuel' =>
            end_of_token <- std_find path begin end_ DOT ;;
            prop_info <- get_property_info ti path begin (end_of_token - begin) ;;
            current' <- match prop_info with
                        | Some p =>
                            c <- call_getter p current ;;
                            ret (set_type_info c (type_info p))
                        | None => ret (set_type_info current None)
                        end ;;
            get_child_loop fuel' path (Nat.min end_ (end_of_token + 1)) end_ current'
        end
    end
  else ret current.

(** Introspectable::get_child(path, length) *)
Definition get_child (self : Introspectable) (path : nat -> ascii) (length : nat)
  : M Introspectable :=
  let current := self in
  let begin := 0 in
  end_ <- std_find path begin length NUL ;;
  get_child_loop end_ path begin end_ current.

(** Introspectable::is_valid() *)
Definition is_valid (self : Introspectable) : bool :=
  match type_info_ self with Some _ => true | None => false end.

(** Introspectable::get_string(buffer, length):
    [type_info_ && type_info_->get_string( *this, buffer, length)] *)
Definition get_string (self : Introspectable) (buffer : list ascii) (length : nat)
  : M (bool * list ascii) :=
  match type_info_ self with
  | None => ret (false, buffer)
  | Some ti =>
      tell (EvGetString ti) ;;;
      lift_world (vt_get_string (static_data ti) self buffer length)
  end.

(** Introspectable::set_string(buffer, length) *)
Definition set_string (self : Introspectable) (buffer : list ascii) (length : nat)
  : M bool :=
  match type_info_ self with
  | None => ret false
  | Some ti =>
      tell (EvSetString ti) ;;;
      lift_world (vt_set_string (static_data ti) self buffer length)
  end.

End Model.

Arguments mkPropertyInfo {W}.
Arguments name {W}.
Arguments getter {W}.
Arguments type_info {W}.
Arguments mkTypeInfo {W}.
Arguments property_table_ {W}.
Arguments vt_get_string {W}.
Arguments vt_set_string {W}.
Arguments TypeInfo_get_string {W}.
Arguments TypeInfo_set_string {W}.
Arguments TypeInfo_ctor {W}.
Arguments mkSt {W}.
Arguments world {W}.
Arguments log {W}.
Arguments add_log {W}.
Arguments ret {W A}.
Arguments bind {W A B}.
Arguments tell {W}.
Arguments lift_world {W A}.
Arguments read_path {W}.
Arguments find_loop {W}.
Arguments std_find {W}.
Arguments strncmp {W}.
Arguments scan_table {W}.
Arguments get_property_info {W}.
Arguments call_getter {W}.
Arguments get_child_loop {W}.
Arguments get_child {W}.
Arguments get_string {W}.
Arguments set_string {W}.

(** ** Built-in type infos *)

Section Adapters.

Variable W : Type.

(** What the header takes from its collaborators: the value type [T], its
    [maybe_underlying_type_t] [U] with the two [static_cast]s between them,
    the [Property<T>] wrapper with [read] and [exchange], the
    reinterpretation of the handle's storage as a [Property<T>]
    ([TypeInfo::as]), and the conversion routines [to_string] and
    [from_string].  [from_string] yields [Some v] when it returns true
    having stored [v] through its out-parameter, and [None] when it returns
    false; the result of [exchange] is discarded by the caller and is left
    out. *)
Variables T U Property : Type.
Variable as_Property : list Byte.byte -> Property.
Variable read : Property -> W -> T.
Variable exchange : Property -> T -> W -> W.
Variable to_underlying : T -> U.
Variable of_underlying : U -> T.
Variable to_string : U -> list ascii -> nat -> bool * list ascii.
Variable from_string : list ascii -> nat -> option U.

(** FibrePropertyTypeInfo<Property<const T>>::get_string *)
Definition ro_get_string
    (obj : Introspectable) (buffer : list ascii) (length : nat) (w : W)
  : (bool * list ascii) * W :=
  (to_string (to_underlying (read (as_Property (storage_ obj)) w)) buffer length, w).

(** FibrePropertyTypeInfo<Property<T>>::get_string *)
Definition rw_get_string
    (obj : Introspectable) (buffer : list ascii) (length : nat) (w : W)
  : (bool * list ascii) * W :=
  (to_string (to_underlying (read (as_Property (storage_ obj)) w)) buffer length, w).

(** FibrePropertyTypeInfo<Property<T>>::set_string *)
Definition rw_set_string
    (obj : Introspectable) (buffer : list ascii) (length : nat) (w : W)
  : bool * W :=
  match from_string buffer length with
  | None => (false, w)
  | Some value =>
      (true, exchange (as_Property (storage_ obj)) (of_underlying value) w)
  end.

(** The two [singleton] objects, each over its empty [property_table]. *)
Definition FibrePropertyTypeInfo_ro_singleton : TypeInfo W :=
  {| property_table_ := [];
     vt_get_string := ro_get_string;
     vt_set_string := TypeInfo_set_string |}.

Definition FibrePropertyTypeInfo_rw_singleton : TypeInfo W :=
  {| property_table_ := [];
     vt_get_string := rw_get_string;
     vt_set_string := rw_set_string |}.

End Adapters.

Arguments ro_get_string {W T U Property}.
Arguments rw_get_string {W T U Property}.
Arguments rw_set_string {W T U Property}.
Arguments FibrePropertyTypeInfo_ro_singleton {W T U Property}.
Arguments FibrePropertyTypeInfo_rw_singleton {W T U Property}.

(** ** Vocabulary of the statements *)

(** [runs_to m w a w' evs]: started in application state [w], whatever the
    log so far, [m] returns [a], leaves the application state [w'] and
    appends exactly [evs] to the log. *)
Definition runs_to {W A} (m : M W A) (w : W) (a : A) (w' : W) (evs : list Event) : Prop :=
  forall lg, m {| world := w; log := lg |} = Some (a, {| world := w'; log := lg ++ evs |}).

(** The first index [i] in [first, first + n) with [path i = value], or
    [first + n] when there is none. *)
Fixpoint first_index (path : nat -> ascii) (value : ascii) (n first : nat) : nat :=
  match n with
  | 0 => first
  | S n' => if Ascii.eqb (path first) value then first
            else first_index path value n' (S first)
  end.

(** The logical end of a path: the position of its first null byte, or the
    length bound when no null byte comes before it. *)
Definition logical_end (path : nat -> ascii) (length : nat) : nat :=
  first_index path NUL length 0.

(** The number of bytes std::find examines when it returns [v]. *)
Definition find_reads (first last v : nat) : list Event :=
  map EvRead (seq first (Nat.min (S v) last - first)).

(** An event that touches the path buffer only below [bound]. *)
Definition ev_below (bound : nat) (e : Event) : Prop :=
  match e with
  | EvRead i => i < bound
  | EvLookup _ tok len => tok + len <= bound
  | _ => True
  end.

Definition is_lookup_or_getter (e : Event) : bool :=
  match e with EvLookup _ _ _ | EvGetter _ => true | _ => false end.

(** ** A small application *)

Module Demo.

(** Application memory: a bank of integer cells.  A [Property<int>] is the
    index of its cell, kept in the first storage byte of the handle. *)
Definition World := list Z.
Definition Prop_ := nat.

Definition as_Property (st : list Byte.byte) : Prop_ :=
  match st with
  | b :: _ => Byte.to_nat b
  | [] => 0
  end.

Definition read (p : Prop_) (w : World) : Z := nth p w 0%Z.

Definition exchange (p : Prop_) (v : Z) (w : World) : World :=
  if p <? List.length w then firstn p w ++ v :: skipn (S p) w else w.

(** Decimal digits only. *)
Fixpoint parse_digits (acc : Z) (l : list ascii) : option Z :=
  match l with
  | [] => Some acc
  | c :: r =>
      let d := nat_of_ascii c in
      if (48 <=? d) && (d <=? 57)
      then parse_digits (acc * 10 + Z.of_nat (d - 48))%Z r
      else None
  end.

Definition from_string (buffer : list ascii) (length : nat) : option Z :=
  match firstn length buffer with
  | [] => None
  | l => parse_digits 0%Z l
  end.

(** Formats single-digit values only; anything else does not fit. *)
Definition to_string (v : Z) (buffer : list ascii) (length : nat)
  : bool * list ascii :=
  if ((0 <=? v) && (v <=? 9))%Z && (1 <=? length)
  then (true, ascii_of_nat (48 + Z.to_nat v) :: tl buffer)
  else (false, buffer).

Definition leaf_int : TypeInfo World :=
  FibrePropertyTypeInfo_rw_singleton as_Property read exchange
    (fun v : Z => v) (fun v : Z => v) to_string from_string.

(** A getter that re-points the handle at cell [b]. *)
Definition point_at (b : Byte.byte) (obj : Introspectable) (w : World)
  : Introspectable * World :=
  ({| storage_ := [b]; type_info_ := type_info_ obj |}, w).

Definition prop_a : PropertyInfo World :=
  {| name := "a"; getter := point_at Byte.x00; type_info := Some 1 |}.
Definition prop_foobar : PropertyInfo World :=
  {| name := "foobar"; getter := point_at Byte.x01; type_info := Some 3 |}.
Definition prop_x : PropertyInfo World :=
  {| name := "x"; getter := point_at Byte.x02; type_info := Some 2 |}.
Definition prop_b : PropertyInfo World :=
  {| name := "b"; getter := point_at Byte.x03; type_info := Some 3 |}.

(** Descriptor 0 is the root object \{a, foobar\}, 1 is \{x\}, 2 is \{b\},
    every other address holds the integer leaf. *)
Definition static_data (r : TypeInfoRef) : TypeInfo World :=
  match r with
  | 0 => TypeInfo_ctor [prop_a; prop_foobar]
  | 1 => TypeInfo_ctor [prop_x]
  | 2 => TypeInfo_ctor [prop_b]
  | _ => leaf_int
  end.

Definition root : Introspectable :=
  {| storage_ := [Byte.xff]; type_info_ := Some 0 |}.

Definition memory : World := [10; 20; 30; 40]%Z.

Definition s0 : St World := {| world := memory; log := [] |}.

End Demo.

(** ** Reference functions for the traversal *)

(** The pointer [path + k]: the same buffer seen from [k] bytes further on. *)
Definition advance (path : nat -> ascii) (k : nat) : nat -> ascii :=
  fun i => path (k + i).

(** An event of a run on [path + k], expressed in offsets from [path]. *)
Definition shift_event (k : nat) (e : Event) : Event :=
  match e with
  | EvRead i => EvRead (k + i)
  | EvLookup this tok len => EvLookup this (k + tok) len
  | _ => e
  end.

(** Whether the stored name [s2] starts with the [n] bytes found at
    [path + s1]. *)
Fixpoint has_prefix (path : nat -> ascii) (s1 : nat) (s2 : string) (n : nat)
    {struct n} : bool :=
  match n with
  | 0 => true
  | S n' =>
      match s2 with
      | EmptyString => false
      | String c r => Ascii.eqb (path s1) c && has_prefix path (S s1) r n'
      end
  end.

(** The first entry of a table whose stored name starts with the token. *)
Definition first_with_prefix {W} (path : nat -> ascii) (name_ length : nat)
    (table : list (PropertyInfo W)) : option (PropertyInfo W) :=
  find (fun p => has_prefix path name_ (name p) length) table.

(** What one step of the traversal does to the handle and to application
    memory once the lookup has answered [r]. *)
Definition step_result {W} (r : option (PropertyInfo W))
    (cur : Introspectable) (w : W) : Introspectable * W :=
  match r with
  | Some p => (set_type_info (fst (getter p cur w)) (type_info p), snd (getter p cur w))
  | None => (set_type_info cur None, w)
  end.

(** A dotted path resolved token by token, each token being looked up with
    [String.prefix] in the table of the descriptor reached so far. *)
Fixpoint resolve {W} (static_data : TypeInfoRef -> TypeInfo W)
    (tokens : list string) (cur : Introspectable) (w : W) : Introspectable * W :=
  match tokens with
  | [] => (cur, w)
  | t :: ts =>
      match type_info_ cur with
      | None => (cur, w)
      | Some ti =>
          match find (fun p => String.prefix t (name p))
                     (property_table_ (static_data ti)) with
          | Some p =>
              resolve static_data ts
                (set_type_info (fst (getter p cur w)) (type_info p))
                (snd (getter p cur w))
          | None => (set_type_info cur None, w)
          end
      end
  end.

(** The tokens joined by '.' into one path string. *)
Fixpoint join_path (tokens : list string) : string :=
  match tokens with
  | [] => EmptyString
  | [t] => t
  | t :: ts => (t ++ String DOT (join_path ts))%string
  end.

(** A token holds neither a '.' nor a null byte; it may be empty. *)
Definition token_chars (t : string) : Prop :=
  forall i c, String.get i t = Some c -> c <> DOT /\ c <> NUL.

(** The tokens that the traversal gets to see: an empty token in last
    position is not one of them. *)
Fixpoint effective_tokens (tokens : list string) : list string :=
  match tokens with
  | [] => []
  | t :: ts =>
      match ts with
      | [] => match t with EmptyString => [] | String _ _ => [t] end
      | _ :: _ => t :: effective_tokens ts
      end
  end.

Definition is_lookup (e : Event) : bool :=
  match e with EvLookup _ _ _ => true | _ => false end.

Definition is_getter_call (e : Event) : bool :=
  match e with EvGetter _ => true | _ => false end.

(** The buffer holds the characters of [s] from offset [begin] on. *)
Definition spells (path : nat -> ascii) (begin : nat) (s : string) : Prop :=
  forall i c, String.get i s = Some c -> path (begin + i) = c.

(** * Properties *)

Example ex_get_child_a_x_b :
  get_child Demo.static_data Demo.root (c_str "a.x.b") 5 Demo.s0
  = Some ({| storage_ := [Byte.x03]; type_info_ := Some 3 |},
          {| world := Demo.memory;
             log := [EvRead 0; EvRead 1; EvRead 2; EvRead 3; EvRead 4;
                     EvRead 0; EvRead 1; EvLookup 0 0 1; EvRead 0; EvGetter "a";
                     EvRead 2; EvRead 3; EvLookup 1 2 1; EvRead 2; EvGetter "x";
                     EvRead 4; EvLookup 2 4 1; EvRead 4; EvGetter "b"] |}).
Proof. reflexivity. Qed.

(** ** Running the monad *)

Section Runs.

Context {W : Type}.

Lemma runs_ret {A} (a : A) (w : W) : runs_to (ret a) w a w [].
Proof. intros lg. unfold ret. now rewrite app_nil_r. Qed.

Lemma runs_tell (e : Event) (w : W) : runs_to (tell e) w tt w [e].
Proof. intros lg. reflexivity. Qed.

Lemma runs_lift {A} (f : W -> A * W) (w : W) :
  runs_to (lift_world f) w (fst (f w)) (snd (f w)) [].
Proof.
  intros lg. unfold lift_world. cbn. destruct (f w) as [a w'].
  cbn. now rewrite app_nil_r.
Qed.

Lemma runs_bind {A B} (m : M W A) (k : A -> M W B) w a w1 e1 b w2 e2 :
  runs_to m w a w1 e1 ->
  runs_to (k a) w1 b w2 e2 ->
  runs_to (bind m k) w b w2 (e1 ++ e2).
Proof.
  intros Hm Hk lg. unfold bind. rewrite Hm, Hk. now rewrite app_assoc.
Qed.

(** A run determines its result, final state and events. *)
Lemma runs_det {A} (m : M W A) w a1 w1 e1 a2 w2 e2 :
  runs_to m w a1 w1 e1 -> runs_to m w a2 w2 e2 ->
  a1 = a2 /\ w1 = w2 /\ e1 = e2.
Proof.
  intros H1 H2. specialize (H1 []). specialize (H2 []).
  rewrite H1 in H2. now inversion H2.
Qed.

Lemma runs_read_path (path : nat -> ascii) (i : nat) (w : W) :
  runs_to (read_path path i) w (path i) w [EvRead i].
Proof. intros lg. reflexivity. Qed.

End Runs.

(** ** std::find *)

Section Find.

Variable path : nat -> ascii.
Variable value : ascii.

Lemma first_index_bounds n first :
  first <= first_index path value n first <= first + n.
Proof.
  revert first. induction n as [|n IH]; intros first; cbn; [lia|].
  destruct (Ascii.eqb (path first) value); [lia|].
  specialize (IH (S first)). lia.
Qed.

Lemma first_index_before n first i :
  first <= i < first_index path value n first -> path i <> value.
Proof.
  revert first. induction n as [|n IH]; intros first; cbn; [lia|].
  destruct (Ascii.eqb_spec (path first) value) as [E|E]; [lia|].
  intros Hi. destruct (Nat.eq_dec i first) as [->|Hne]; [exact E|].
  apply (IH (S first)). lia.
Qed.

Lemma first_index_hit n first :
  first_index path value n first < first + n ->
  path (first_index path value n first) = value.
Proof.
  revert first. induction n as [|n IH]; intros first; cbn; [lia|].
  destruct (Ascii.eqb_spec (path first) value) as [E|E]; [now intros _|].
  intros H. apply IH. lia.
Qed.

(** The three facts above pin the index down. *)
Lemma first_index_unique n first u :
  first <= u <= first + n ->
  (forall i, first <= i < u -> path i <> value) ->
  (u < first + n -> path u = value) ->
  u = first_index path value n first.
Proof.
  intros Hb Hbefore Hhit.
  pose proof (first_index_bounds n first) as Vb.
  pose proof (first_index_before n first) as Vbefore.
  pose proof (first_index_hit n first) as Vhit.
  destruct (Nat.lt_trichotomy u (first_index path value n first)) as [L|[E|G]].
  - exfalso. apply (Vbefore u); [lia|]. apply Hhit. lia.
  - exact E.
  - exfalso. apply (Hbefore (first_index path value n first)); [lia|].
    apply Vhit. lia.
Qed.

Context {W : Type}.

Lemma find_loop_runs n first (w : W) :
  runs_to (find_loop path value n first) w
    (first_index path value n first) w
    (map EvRead (seq first (Nat.min (S (first_index path value n first) - first) n))).
Proof.
  revert first. induction n as [|n IH]; intros first.
  - cbn [find_loop first_index]. rewrite Nat.min_0_r. apply runs_ret.
  - cbn [find_loop first_index].
    destruct (Ascii.eqb (path first) value) eqn:E.
    + replace (Nat.min (S first - first) (S n)) with 1 by lia.
      change (map EvRead (seq first 1)) with ([EvRead first] ++ []).
      eapply runs_bind; [apply runs_read_path|].
      rewrite E. apply runs_ret.
    + pose proof (first_index_bounds n (S first)) as Hb.
      replace (Nat.min (S (first_index path value n (S first)) - first) (S n))
        with (S (Nat.min (S (first_index path value n (S first)) - S first) n))
        by lia.
      cbn [seq map].
      change (EvRead first :: ?l) with ([EvRead first] ++ l).
      eapply runs_bind; [apply runs_read_path|].
      rewrite E. apply IH.
Qed.

Lemma std_find_runs first last (w : W) :
  first <= last ->
  runs_to (std_find path first last value) w
    (first_index path value (last - first) first) w
    (find_reads first last (first_index path value (last - first) first)).
Proof.
  intros Hle. unfold std_find, find_reads.
  replace (Nat.min (S (first_index path value (last - first) first)) last - first)
    with (Nat.min (S (first_index path value (last - first) first) - first) (last - first))
    by lia.
  apply find_loop_runs.
Qed.

Lemma find_reads_below first last v :
  Forall (ev_below last) (find_reads first last v).
Proof.
  unfold find_reads. apply Forall_forall. intros e He.
  apply in_map_iff in He. destruct He as (i & <- & Hi).
  apply in_seq in Hi. cbn. lia.
Qed.

Lemma find_reads_are_reads first last v :
  forallb is_read (find_reads first last v) = true.
Proof.
  unfold find_reads. apply forallb_forall. intros e He.
  apply in_map_iff in He. now destruct He as (i & <- & _).
Qed.

End Find.

(** ** strncmp and the table scan *)

Section Lookup.

Context {W : Type}.
Variable static_data : TypeInfoRef -> TypeInfo W.
Variable path : nat -> ascii.

Lemma runs_to_events {A} (m : M W A) w a w' e e' :
  runs_to m w a w' e -> e = e' -> runs_to m w a w' e'.
Proof. now intros H <-. Qed.

(** strncmp examines at most [n] bytes, all of them from [s1] on, and
    touches nothing else. *)
Lemma strncmp_runs (n s1 : nat) (s2 : string) :
  exists (v : Z) (k : nat),
    k <= n /\
    forall w : W, runs_to (strncmp path s1 s2 n) w v w (map EvRead (seq s1 k)).
Proof.
  revert s1 s2. induction n as [|n IH]; intros s1 s2.
  - exists 0%Z, 0. split; [lia|]. intros w. apply runs_ret.
  - cbn [strncmp].
    set (hd := match s2 with EmptyString => (NUL, EmptyString) | String c r => (c, r) end).
    destruct hd as [c2 s2'] eqn:Ehd.
    destruct (Ascii.eqb (path s1) c2) eqn:E1.
    + destruct (Ascii.eqb (path s1) NUL) eqn:E2.
      * exists 0%Z, 1. split; [lia|]. intros w.
        change (map EvRead (seq s1 1)) with ([EvRead s1] ++ []).
        eapply runs_bind; [apply runs_read_path|].
        rewrite E1, E2. apply runs_ret.
      * destruct (IH (S s1) s2') as (v & k & Hk & Hrun).
        exists v, (S k). split; [lia|]. intros w.
        cbn [seq map]. change (EvRead s1 :: ?l) with ([EvRead s1] ++ l).
        eapply runs_bind; [apply runs_read_path|].
        rewrite E1, E2. apply Hrun.
    + exists (char_diff (path s1) c2), 1. split; [lia|]. intros w.
      change (map EvRead (seq s1 1)) with ([EvRead s1] ++ []).
      eapply runs_bind; [apply runs_read_path|].
      rewrite E1. apply runs_ret.
Qed.

(** With [n = 0] nothing is compared and the result is 0. *)
Lemma strncmp_zero_length (s1 : nat) (s2 : string) (w : W) :
  runs_to (strncmp path s1 s2 0) w 0%Z w [].
Proof. apply runs_ret. Qed.

(** A stored name that starts with the [n] bytes of the token compares
    equal, whatever follows in the stored name. *)
Lemma strncmp_prefix (n s1 : nat) (s2 : string) :
  (forall i, i < n -> String.get i s2 = Some (path (s1 + i))) ->
  exists k, forall w : W,
    runs_to (strncmp path s1 s2 n) w 0%Z w (map EvRead (seq s1 k)).
Proof.
  revert s1 s2. induction n as [|n IH]; intros s1 s2 Hpre.
  - exists 0. intros w. apply runs_ret.
  - pose proof (Hpre 0 (Nat.lt_0_succ n)) as H0.
    destruct s2 as [|c r]; [discriminate|].
    cbn in H0. rewrite Nat.add_0_r in H0. injection H0 as ->.
    cbn [strncmp].
    destruct (Ascii.eqb (path s1) NUL) eqn:E2.
    + exists 1. intros w.
      change (map EvRead (seq s1 1)) with ([EvRead s1] ++ []).
      eapply runs_bind; [apply runs_read_path|].
      cbn beta. rewrite Ascii.eqb_refl, E2. apply runs_ret.
    + destruct (IH (S s1) r) as (k & Hrun).
      { intros i Hi. specialize (Hpre (S i) (proj1 (Nat.succ_lt_mono i n) Hi)).
        cbn in Hpre. rewrite Hpre. f_equal. f_equal. lia. }
      exists (S k). intros w.
      cbn [seq map]. change (EvRead s1 :: ?l) with ([EvRead s1] ++ l).
      eapply runs_bind; [apply runs_read_path|].
      cbn beta. rewrite Ascii.eqb_refl, E2. apply Hrun.
Qed.

Lemma reads_below_app s1 k bound :
  s1 + k <= bound -> Forall (ev_below bound) (map EvRead (seq s1 k)).
Proof.
  intros H. apply Forall_forall. intros e He.
  apply in_map_iff in He. destruct He as (i & <- & Hi).
  apply in_seq in Hi. cbn. lia.
Qed.

Lemma reads_are_reads s1 k : forallb is_read (map EvRead (seq s1 k)) = true.
Proof.
  apply forallb_forall. intros e He.
  apply in_map_iff in He. now destruct He as (i & <- & _).
Qed.

(** The scan examines only bytes of the token, returns an entry of the
    table or none, and leaves application memory alone. *)
Lemma scan_table_runs (name_ length : nat) (table : list (PropertyInfo W)) :
  exists r evs,
    (forall w : W, runs_to (scan_table path name_ length table) w r w evs) /\
    Forall (ev_below (name_ + length)) evs /\
    forallb is_read evs = true /\
    (forall p, r = Some p -> In p table).
Proof.
  induction table as [|prop rest IH].
  - exists None, []. repeat split; try constructor; try discriminate.
    intros w. apply runs_ret.
  - destruct (strncmp_runs length name_ (name prop)) as (v & k & Hk & Hcmp).
    cbn [scan_table]. destruct (Z.eqb v 0) eqn:Ev.
    + exists (Some prop), (map EvRead (seq name_ k)). repeat split.
      * intros w. eapply runs_to_events.
        { eapply runs_bind; [apply Hcmp|]. rewrite Ev. apply runs_ret. }
        apply app_nil_r.
      * apply reads_below_app. lia.
      * apply reads_are_reads.
      * intros p [= <-]. now left.
    + destruct IH as (r & evs & Hrun & Hbelow & Hreads & Hin).
      exists r, (map EvRead (seq name_ k) ++ evs). repeat split.
      * intros w. eapply runs_bind; [apply Hcmp|]. rewrite Ev. apply Hrun.
      * apply Forall_app. split; [apply reads_below_app; lia|exact Hbelow].
      * rewrite forallb_app, reads_are_reads. exact Hreads.
      * intros p Hp. right. now apply Hin.
Qed.

Lemma get_property_info_runs (this : TypeInfoRef) (name_ length : nat) :
  exists r evs,
    (forall w : W,
        runs_to (get_property_info static_data this path name_ length) w r w
                (EvLookup this name_ length :: evs)) /\
    Forall (ev_below (name_ + length)) evs /\
    forallb is_read evs = true /\
    (forall p, r = Some p -> In p (property_table_ (static_data this))).
Proof.
  destruct (scan_table_runs name_ length (property_table_ (static_data this)))
    as (r & evs & Hrun & Hbelow & Hreads & Hin).
  exists r, evs. repeat split; auto.
  intros w. unfold get_property_info.
  change (EvLookup this name_ length :: evs)
    with ([EvLookup this name_ length] ++ evs).
  eapply runs_bind; [apply runs_tell|]. apply Hrun.
Qed.

End Lookup.

(** ** The traversal loop *)

Section Traversal.

Context {W : Type}.
Variable static_data : TypeInfoRef -> TypeInfo W.
Variable path : nat -> ascii.
Variable end_ : nat.

Lemma call_getter_runs (p : PropertyInfo W) (cur : Introspectable) (w : W) :
  runs_to (call_getter p cur) w
    (fst (getter p cur w)) (snd (getter p cur w)) [EvGetter (name p)].
Proof.
  intros lg. unfold call_getter, bind, tell, lift_world, add_log. cbn.
  now destruct (getter p cur w).
Qed.

(** The loop is over as soon as the handle is invalid or the path is used up. *)
Lemma get_child_loop_done fuel begin (cur : Introspectable) (w : W) :
  end_ <= begin \/ type_info_ cur = None ->
  runs_to (get_child_loop static_data fuel path begin end_ cur) w cur w [].
Proof.
  intros H. destruct fuel; cbn [get_child_loop];
    destruct (Nat.ltb_spec begin end_) as [L|L]; try apply runs_ret;
    (destruct H as [H|H]; [lia|rewrite H; apply runs_ret]).
Qed.

(** One iteration whose lookup succeeds. *)
Lemma get_child_loop_found fuel begin cur ti p evs w h w' rest :
  begin < end_ ->
  type_info_ cur = Some ti ->
  runs_to (get_property_info static_data ti path begin
             (first_index path DOT (end_ - begin) begin - begin))
          w (Some p) w evs ->
  runs_to (get_child_loop static_data fuel path
             (Nat.min end_ (first_index path DOT (end_ - begin) begin + 1)) end_
             (set_type_info (fst (getter p cur w)) (type_info p)))
          (snd (getter p cur w)) h w' rest ->
  runs_to (get_child_loop static_data (S fuel) path begin end_ cur) w h w'
          (find_reads begin end_ (first_index path DOT (end_ - begin) begin)
           ++ evs ++ [EvGetter (name p)] ++ rest).
Proof.
  intros Hlt Hti Hlook Hrest. cbn [get_child_loop].
  apply Nat.ltb_lt in Hlt as Hb. rewrite Hb, Hti.
  eapply runs_bind; [apply std_find_runs; lia|].
  eapply runs_bind; [exact Hlook|].
  eapply runs_bind; [|exact Hrest].
  eapply runs_to_events.
  - eapply runs_bind; [apply call_getter_runs|apply runs_ret].
  - reflexivity.
Qed.

(** One iteration whose lookup fails: the handle is invalidated and the
    loop ends there, whatever is left of the path. *)
Lemma get_child_loop_not_found fuel begin cur ti evs w :
  begin < end_ ->
  type_info_ cur = Some ti ->
  runs_to (get_property_info static_data ti path begin
             (first_index path DOT (end_ - begin) begin - begin))
          w None w evs ->
  runs_to (get_child_loop static_data (S fuel) path begin end_ cur) w
          (set_type_info cur None) w
          (find_reads begin end_ (first_index path DOT (end_ - begin) begin) ++ evs).
Proof.
  intros Hlt Hti Hlook. cbn [get_child_loop].
  apply Nat.ltb_lt in Hlt as Hb. rewrite Hb, Hti.
  eapply runs_bind; [apply std_find_runs; lia|].
  eapply runs_to_events.
  - eapply runs_bind; [exact Hlook|].
    eapply runs_bind; [apply runs_ret|].
    apply get_child_loop_done. now right.
  - cbn. now rewrite app_nil_r.
Qed.

(** With [end_ - begin] units of fuel the loop returns, and everything it
    does to the path buffer happens below [end_]. *)
Lemma get_child_loop_runs fuel :
  forall begin cur (w : W),
    end_ - begin <= fuel ->
    exists h w' evs,
      runs_to (get_child_loop static_data fuel path begin end_ cur) w h w' evs /\
      Forall (ev_below end_) evs.
Proof.
  induction fuel as [|fuel IH]; intros begin cur w Hfuel.
  - exists cur, w, []. split; [|constructor].
    apply get_child_loop_done. left. lia.
  - destruct (Nat.lt_ge_cases begin end_) as [Hlt|Hge].
    2:{ exists cur, w, []. split; [|constructor].
        apply get_child_loop_done. now left. }
    destruct (type_info_ cur) as [ti|] eqn:Hti.
    2:{ exists cur, w, []. split; [|constructor].
        apply get_child_loop_done. now right. }
    pose proof (first_index_bounds path DOT (end_ - begin) begin) as Hb.
    set (v := first_index path DOT (end_ - begin) begin) in *.
    destruct (get_property_info_runs static_data path ti begin (v - begin))
      as (r & evs & Hlook & Hbelow & _ & _).
    assert (Hev : Forall (ev_below end_) (EvLookup ti begin (v - begin) :: evs)).
    { constructor; [cbn; lia|].
      eapply Forall_impl; [|exact Hbelow].
      intros [] ?; cbn in *; lia. }
    destruct r as [p|].
    + destruct (IH (Nat.min end_ (v + 1))
                  (set_type_info (fst (getter p cur w)) (type_info p))
                  (snd (getter p cur w)))
        as (h & w' & rest & Hrest & Hrb); [lia|].
      exists h, w', (find_reads begin end_ v
                      ++ (EvLookup ti begin (v - begin) :: evs)
                      ++ [EvGetter (name p)] ++ rest).
      split.
      * eapply get_child_loop_found; eauto.
      * repeat (apply Forall_app; split); auto.
        -- apply find_reads_below.
        -- repeat constructor.
    + exists (set_type_info cur None), w,
        (find_reads begin end_ v ++ (EvLookup ti begin (v - begin) :: evs)).
      split.
      * eapply get_child_loop_not_found; eauto.
      * apply Forall_app. split; auto. apply find_reads_below.
Qed.

(** More fuel than needed changes nothing. *)
Lemma get_child_loop_fuel fuel fuel' begin cur (w : W) h w' evs :
  end_ - begin <= fuel -> end_ - begin <= fuel' ->
  runs_to (get_child_loop static_data fuel path begin end_ cur) w h w' evs ->
  runs_to (get_child_loop static_data fuel' path begin end_ cur) w h w' evs.
Proof.
  revert fuel' begin cur w h w' evs.
  induction fuel as [|fuel IH]; intros fuel' begin cur w h w' evs Hf Hf' Hrun.
  - assert (Hd : runs_to (get_child_loop static_data 0 path begin end_ cur) w cur w [])
      by (apply get_child_loop_done; left; lia).
    destruct (runs_det _ _ _ _ _ _ _ _ Hrun Hd) as (-> & -> & ->).
    apply get_child_loop_done. left. lia.
  - destruct (Nat.lt_ge_cases begin end_) as [Hlt|Hge].
    2:{ assert (Hd : runs_to (get_child_loop static_data (S fuel) path begin end_ cur)
                             w cur w [])
          by (apply get_child_loop_done; now left).
        destruct (runs_det _ _ _ _ _ _ _ _ Hrun Hd) as (-> & -> & ->).
        apply get_child_loop_done. now left. }
    destruct (type_info_ cur) as [ti|] eqn:Hti.
    2:{ assert (Hd : runs_to (get_child_loop static_data (S fuel) path begin end_ cur)
                             w cur w [])
          by (apply get_child_loop_done; now right).
        destruct (runs_det _ _ _ _ _ _ _ _ Hrun Hd) as (-> & -> & ->).
        apply get_child_loop_done. now right. }
    destruct fuel' as [|fuel']; [lia|].
    pose proof (first_index_bounds path DOT (end_ - begin) begin) as Hb.
    set (v := first_index path DOT (end_ - begin) begin) in *.
    destruct (get_property_info_runs static_data path ti begin (v - begin))
      as (r & levs & Hlook & _).
    destruct r as [p|].
    + destruct (get_child_loop_runs fuel (Nat.min end_ (v + 1))
                  (set_type_info (fst (getter p cur w)) (type_info p))
                  (snd (getter p cur w)))
        as (h1 & w1 & rest & Hrest & _); [lia|].
      pose proof (get_child_loop_found fuel begin cur ti p _ w h1 w1 rest
                    Hlt Hti (Hlook w) Hrest) as Hfull.
      destruct (runs_det _ _ _ _ _ _ _ _ Hrun Hfull) as (-> & -> & ->).
      eapply get_child_loop_found; eauto.
      eapply IH; [| |exact Hrest]; lia.
    + pose proof (get_child_loop_not_found fuel begin cur ti _ w
                    Hlt Hti (Hlook w)) as Hfull.
      destruct (runs_det _ _ _ _ _ _ _ _ Hrun Hfull) as (-> & -> & ->).
      eapply get_child_loop_not_found; eauto.
Qed.

(** get_child is the scan for the end of the path followed by the loop. *)
Lemma get_child_runs_from_loop (self : Introspectable) (length : nat) (w : W) h w' evs :
  end_ = logical_end path length ->
  runs_to (get_child_loop static_data end_ path 0 end_ self) w h w' evs ->
  runs_to (get_child static_data self path length) w h w'
          (find_reads 0 length end_ ++ evs).
Proof.
  intros -> Hloop. unfold get_child.
  eapply runs_bind.
  - eapply runs_to_events; [apply std_find_runs; lia|].
    unfold logical_end. now rewrite Nat.sub_0_r.
  - unfold logical_end in *. rewrite Nat.sub_0_r. exact Hloop.
Qed.

End Traversal.

(** ** TypeInfo::get_property_info *)

(** An entry whose stored name merely starts with the token is returned:
    the comparison never looks at the stored name past [length]. *)
Lemma scan_table_prefix_entry {W} (path : nat -> ascii) (name_ length : nat)
    (prop : PropertyInfo W) (rest : list (PropertyInfo W)) :
  (forall i, i < length -> String.get i (name prop) = Some (path (name_ + i))) ->
  exists k, forall w : W,
    runs_to (scan_table path name_ length (prop :: rest)) w (Some prop) w
            (map EvRead (seq name_ k)).
Proof.
  intros Hpre. destruct (strncmp_prefix (W:=W) path length name_ (name prop) Hpre) as (k & Hk).
  exists k. intros w. cbn [scan_table].
  eapply runs_to_events.
  - eapply runs_bind; [apply Hk|]. cbn. apply runs_ret.
  - apply app_nil_r.
Qed.

(** C1: the query "foo" of length 3 is answered with the entry stored under
    "foobar": strncmp compares only the first 3 bytes, so the match is a
    prefix match and not a length-exact one.  (The first entry, "a", is
    rejected on its first byte.) *)
Theorem get_property_info_foo_matches_foobar :
  get_property_info Demo.static_data 0 (c_str "foo") 0 3 Demo.s0
  = Some (Some Demo.prop_foobar,
          {| world := Demo.memory;
             log := [EvLookup 0 0 3; EvRead 0; EvRead 0; EvRead 1; EvRead 2] |})
  /\ name Demo.prop_foobar = "foobar"%string
  /\ (forall p, In p (property_table_ (Demo.static_data 0)) ->
                name p <> "foo"%string).
Proof.
  split; [reflexivity|]. split; [reflexivity|].
  intros p [<-|[<-|[]]]; discriminate.
Qed.

(** C9: on a table with at least one entry, a lookup of length 0 returns the
    first entry, without examining a single byte of the query. *)
Theorem get_property_info_length_zero {W}
    (static_data : TypeInfoRef -> TypeInfo W) (this : TypeInfoRef)
    (path : nat -> ascii) (name_ : nat)
    (prop : PropertyInfo W) (rest : list (PropertyInfo W)) (w : W) :
  property_table_ (static_data this) = prop :: rest ->
  runs_to (get_property_info static_data this path name_ 0) w
          (Some prop) w [EvLookup this name_ 0].
Proof.
  intros Htable. unfold get_property_info. rewrite Htable.
  change [EvLookup this name_ 0] with ([EvLookup this name_ 0] ++ []).
  eapply runs_bind; [apply runs_tell|].
  cbn [scan_table]. eapply runs_to_events.
  - eapply runs_bind; [apply strncmp_zero_length|]. cbn. apply runs_ret.
  - reflexivity.
Qed.

Lemma get_property_info_length_zero_witness :
  property_table_ (Demo.static_data 0) = [Demo.prop_a; Demo.prop_foobar]
  /\ runs_to (get_property_info Demo.static_data 0 (c_str "a..b") 2 0)
             Demo.memory (Some Demo.prop_a) Demo.memory [EvLookup 0 2 0].
Proof.
  split; [reflexivity|].
  apply (get_property_info_length_zero Demo.static_data 0 (c_str "a..b") 2
           Demo.prop_a [Demo.prop_foobar] Demo.memory).
  reflexivity.
Defined.

(** ** Introspectable::get_child *)

(** C2: "foo" is registered nowhere in the root table \{a, foobar\}, yet
    get_child resolves it to the child stored under "foobar" and returns a
    valid handle: the getter of that entry is invoked. *)
Theorem get_child_unregistered_segment_resolves :
  get_child Demo.static_data Demo.root (c_str "foo") 3 Demo.s0
  = Some ({| storage_ := [Byte.x01]; type_info_ := Some 3 |},
          {| world := Demo.memory;
             log := [EvRead 0; EvRead 1; EvRead 2;
                     EvRead 0; EvRead 1; EvRead 2;
                     EvLookup 0 0 3; EvRead 0; EvRead 0; EvRead 1; EvRead 2;
                     EvGetter "foobar"] |})
  /\ (forall p, In p (property_table_ (Demo.static_data 0)) ->
                name p <> "foo"%string).
Proof.
  split; [reflexivity|].
  intros p [<-|[<-|[]]]; discriminate.
Qed.

(** C3: in "a..b" the empty token between the two dots is looked up in the
    table of [a] with length 0, matches its first entry "x" and the traversal
    goes on through it; the handle returned is valid. *)
Theorem get_child_consecutive_separators_resolve :
  get_child Demo.static_data Demo.root (c_str "a..b") 4 Demo.s0
  = Some ({| storage_ := [Byte.x03]; type_info_ := Some 3 |},
          {| world := Demo.memory;
             log := [EvRead 0; EvRead 1; EvRead 2; EvRead 3;
                     EvRead 0; EvRead 1; EvLookup 0 0 1; EvRead 0; EvGetter "a";
                     EvRead 2; EvLookup 1 2 0; EvGetter "x";
                     EvRead 3; EvLookup 2 3 1; EvRead 3; EvGetter "b"] |}).
Proof. reflexivity. Qed.

Lemma reads_no_lookup_or_getter (evs : list Event) :
  forallb is_read evs = true -> existsb is_lookup_or_getter evs = false.
Proof.
  induction evs as [|e evs IH]; [reflexivity|].
  cbn. intros H. apply andb_prop in H as [He Hevs].
  rewrite (IH Hevs). now destruct e.
Qed.

Lemma logical_end_empty (path : nat -> ascii) (length : nat) :
  length = 0 \/ path 0 = NUL -> logical_end path length = 0.
Proof.
  unfold logical_end. intros [->|H0]; [reflexivity|].
  destruct length; [reflexivity|]. cbn. rewrite H0. reflexivity.
Qed.

(** C7: on an empty path (length 0, or a null first byte) get_child returns
    the receiver itself, storage and TypeInfo pointer alike, and leaves the
    application state alone; all it does is look at the first byte when the
    length allows it. *)
Theorem get_child_empty_path {W}
    (static_data : TypeInfoRef -> TypeInfo W) (self : Introspectable)
    (path : nat -> ascii) (length : nat) (w : W) :
  length = 0 \/ path 0 = NUL ->
  runs_to (get_child static_data self path length) w self w
          (if length =? 0 then [] else [EvRead 0]).
Proof.
  intros H. pose proof (logical_end_empty path length H) as He.
  eapply runs_to_events.
  - eapply (get_child_runs_from_loop static_data path 0); [now rewrite He|].
    apply get_child_loop_done. left. lia.
  - rewrite app_nil_r. unfold find_reads.
    destruct length as [|l]; [reflexivity|].
    replace (Nat.min 1 (S l) - 0) with 1 by lia. reflexivity.
Qed.

Lemma get_child_empty_path_witness :
  (0 = 0 \/ c_str "a.b" 0 = NUL)
  /\ runs_to (get_child Demo.static_data Demo.root (c_str "a.b") 0)
             Demo.memory Demo.root Demo.memory [].
Proof.
  split; [now left|].
  apply (get_child_empty_path Demo.static_data Demo.root (c_str "a.b") 0
           Demo.memory).
  now left.
Defined.

(** C10: on an invalid receiver get_child returns the receiver (still
    invalid, same storage bytes) and the application state it found; the
    only thing it does is scan for the end of the path: no lookup is made
    and no getter is called. *)
Theorem get_child_invalid_absorbing {W}
    (static_data : TypeInfoRef -> TypeInfo W) (self : Introspectable)
    (path : nat -> ascii) (length : nat) (w : W) :
  is_valid self = false ->
  exists evs,
    runs_to (get_child static_data self path length) w self w evs /\
    existsb is_lookup_or_getter evs = false.
Proof.
  intros Hinv. unfold is_valid in Hinv.
  destruct (type_info_ self) eqn:Hti; [discriminate|].
  exists (find_reads 0 length (logical_end path length)). split.
  - eapply runs_to_events.
    + eapply (get_child_runs_from_loop static_data path (logical_end path length));
        [reflexivity|].
      apply get_child_loop_done. now right.
    + apply app_nil_r.
  - apply reads_no_lookup_or_getter, find_reads_are_reads.
Qed.

Lemma get_child_invalid_absorbing_witness :
  is_valid {| storage_ := [Byte.x07]; type_info_ := None |} = false
  /\ exists evs,
      runs_to (get_child Demo.static_data
                 {| storage_ := [Byte.x07]; type_info_ := None |} (c_str "a.x") 3)
              Demo.memory {| storage_ := [Byte.x07]; type_info_ := None |}
              Demo.memory evs
      /\ existsb is_lookup_or_getter evs = false.
Proof.
  split; [reflexivity|].
  apply (get_child_invalid_absorbing Demo.static_data
           {| storage_ := [Byte.x07]; type_info_ := None |} (c_str "a.x") 3
           Demo.memory).
  reflexivity.
Defined.

(** C8: the end that get_child works with is the position of the first null
    byte or the length bound, whichever comes first; finding it examines the
    bytes up to that null byte and none at or past the length bound; and
    the traversal that follows returns, having examined and handed to the
    lookup only bytes below that end. *)
Theorem get_child_stays_below_logical_end {W}
    (static_data : TypeInfoRef -> TypeInfo W) (self : Introspectable)
    (path : nat -> ascii) (length : nat) (w : W) :
  let e := logical_end path length in
  e <= length /\
  (forall i, i < e -> path i <> NUL) /\
  (e < length -> path e = NUL) /\
  Forall (ev_below length) (find_reads 0 length e) /\
  Forall (ev_below (S e)) (find_reads 0 length e) /\
  exists h w' evs,
    runs_to (get_child static_data self path length) w h w'
            (find_reads 0 length e ++ evs) /\
    Forall (ev_below e) evs.
Proof.
  intros e. unfold e, logical_end.
  pose proof (first_index_bounds path NUL length 0) as Hb.
  repeat split.
  - lia.
  - intros i Hi. apply (first_index_before path NUL length 0). lia.
  - intros Hlt. apply first_index_hit. lia.
  - apply find_reads_below.
  - unfold find_reads. apply Forall_forall. intros ev Hev.
    apply in_map_iff in Hev. destruct Hev as (i & <- & Hi).
    apply in_seq in Hi. cbn. lia.
  - destruct (get_child_loop_runs static_data path (first_index path NUL length 0)
                (first_index path NUL length 0) 0 self w) as (h & w' & evs & Hrun & Hbelow);
      [lia|].
    exists h, w', evs. split; [|exact Hbelow].
    now apply get_child_runs_from_loop.
Qed.

(** ** Introspectable::get_string and Introspectable::set_string *)

(** C6: on an invalid handle get_string and set_string return false with an
    untouched application state and an empty event list, so no hook was
    entered (the test of [type_info_] comes first); on a handle whose
    descriptor is a plain [TypeInfo] (a structural node) set_string enters
    the inherited hook, which returns false and leaves the application state
    as it was. *)
Theorem string_access_invalid_or_structural {W}
    (static_data : TypeInfoRef -> TypeInfo W) (self : Introspectable)
    (buffer : list ascii) (length : nat) (w : W) :
  (is_valid self = false ->
     runs_to (get_string static_data self buffer length) w (false, buffer) w [] /\
     runs_to (set_string static_data self buffer length) w false w []) /\
  (forall ti table,
     type_info_ self = Some ti ->
     static_data ti = TypeInfo_ctor table ->
     runs_to (set_string static_data self buffer length) w false w [EvSetString ti]).
Proof.
  split.
  - unfold is_valid, get_string, set_string.
    destruct (type_info_ self); [discriminate|].
    intros _. split; apply runs_ret.
  - intros ti table Hti Hsd. unfold set_string. rewrite Hti, Hsd.
    intros lg. reflexivity.
Qed.

Lemma string_access_invalid_or_structural_witness :
  (is_valid {| storage_ := [Byte.x00]; type_info_ := None |} = false /\
   runs_to (get_string Demo.static_data
              {| storage_ := [Byte.x00]; type_info_ := None |} ["7"%char] 1)
           Demo.memory (false, ["7"%char]) Demo.memory [] /\
   runs_to (set_string Demo.static_data
              {| storage_ := [Byte.x00]; type_info_ := None |} ["7"%char] 1)
           Demo.memory false Demo.memory []) /\
  (type_info_ Demo.root = Some 0 /\
   Demo.static_data 0 = TypeInfo_ctor [Demo.prop_a; Demo.prop_foobar] /\
   runs_to (set_string Demo.static_data Demo.root ["7"%char] 1)
           Demo.memory false Demo.memory [EvSetString 0]).
Proof.
  split.
  - split; [reflexivity|].
    apply (proj1 (string_access_invalid_or_structural Demo.static_data
                    {| storage_ := [Byte.x00]; type_info_ := None |} ["7"%char] 1
                    Demo.memory)).
    reflexivity.
  - split; [reflexivity|]. split; [reflexivity|].
    apply (proj2 (string_access_invalid_or_structural Demo.static_data
                    Demo.root ["7"%char] 1 Demo.memory)
             0 [Demo.prop_a; Demo.prop_foobar]); reflexivity.
Defined.

(** ** FibrePropertyTypeInfo<Property<T>>::set_string *)

(** C5: the set_string hook of the read-write adapter first parses the
    buffer; if the parse fails it returns false and the application state is
    the one it was given; if the parse yields [v] it returns true and the
    new state is the one [exchange] produces for the property held in the
    handle's storage and the value [v] cast back to [T]. *)
Theorem rw_set_string_parse_then_exchange {W T U Property : Type}
    (as_Property : list Byte.byte -> Property)
    (read : Property -> W -> T) (exchange : Property -> T -> W -> W)
    (to_underlying : T -> U) (of_underlying : U -> T)
    (to_string : U -> list ascii -> nat -> bool * list ascii)
    (from_string : list ascii -> nat -> option U)
    (obj : Introspectable) (buffer : list ascii) (length : nat) (w : W) :
  let adapter := FibrePropertyTypeInfo_rw_singleton as_Property read exchange
                   to_underlying of_underlying to_string from_string in
  (from_string buffer length = None ->
     vt_set_string adapter obj buffer length w = (false, w)) /\
  (forall v, from_string buffer length = Some v ->
     vt_set_string adapter obj buffer length w
     = (true, exchange (as_Property (storage_ obj)) (of_underlying v) w)).
Proof.
  cbn. unfold rw_set_string. split.
  - now intros ->.
  - now intros v ->.
Qed.

Lemma rw_set_string_parse_then_exchange_witness :
  (Demo.from_string ["4"; "x"]%char 2 = None /\
   vt_set_string Demo.leaf_int {| storage_ := [Byte.x01]; type_info_ := Some 3 |}
     ["4"; "x"]%char 2 Demo.memory
   = (false, [10; 20; 30; 40]%Z)) /\
  (Demo.from_string ["4"; "2"]%char 2 = Some 42%Z /\
   vt_set_string Demo.leaf_int {| storage_ := [Byte.x01]; type_info_ := Some 3 |}
     ["4"; "2"]%char 2 Demo.memory
   = (true, [10; 42; 30; 40]%Z)).
Proof.
  split.
  - split; [reflexivity|].
    apply (proj1 (rw_set_string_parse_then_exchange Demo.as_Property
                    Demo.read Demo.exchange (fun v : Z => v) (fun v : Z => v)
                    Demo.to_string Demo.from_string
                    {| storage_ := [Byte.x01]; type_info_ := Some 3 |}
                    ["4"; "x"]%char 2 Demo.memory)).
    reflexivity.
  - split; [reflexivity|].
    apply (proj2 (rw_set_string_parse_then_exchange Demo.as_Property
                    Demo.read Demo.exchange (fun v : Z => v) (fun v : Z => v)
                    Demo.to_string Demo.from_string
                    {| storage_ := [Byte.x01]; type_info_ := Some 3 |}
                    ["4"; "2"]%char 2 Demo.memory) 42%Z).
    reflexivity.
Defined.

(** ** A trailing separator *)

Lemma filter_reads_nil (evs : list Event) :
  forallb is_read evs = true -> filter is_lookup_or_getter evs = [].
Proof.
  induction evs as [|e evs IH]; [reflexivity|].
  cbn. intros H. apply andb_prop in H as [He Hevs].
  rewrite (IH Hevs). now destruct e.
Qed.

Lemma logical_end_truncate (path : nat -> ascii) (length n : nat) :
  n <= logical_end path length -> logical_end path n = n.
Proof.
  intros Hn. unfold logical_end in *. symmetry.
  apply first_index_unique; [lia| |lia].
  intros i Hi. apply (first_index_before path NUL length 0). lia.
Qed.

Section TrailingDot.

Context {W : Type}.
Variable static_data : TypeInfoRef -> TypeInfo W.
Variable path : nat -> ascii.

(** [e'] is the position of a separator that follows a non-separator. *)
Variable e' : nat.
Hypothesis Hdot : path e' = DOT.
Hypothesis Hprev : path (e' - 1) <> DOT.

(** Stopping just before that separator or just after it makes no
    difference to the loop: same handle, same application state, same
    lookups and getter calls. *)
Lemma get_child_loop_trailing_dot fuel :
  forall begin cur (w : W),
    begin < e' -> e' - begin <= fuel ->
    exists h w' evs evs',
      runs_to (get_child_loop static_data fuel path begin e' cur) w h w' evs /\
      runs_to (get_child_loop static_data (S fuel) path begin (S e') cur) w h w' evs' /\
      filter is_lookup_or_getter evs = filter is_lookup_or_getter evs'.
Proof.
  induction fuel as [|fuel IH]; intros begin cur w Hlt Hfuel; [lia|].
  destruct (type_info_ cur) as [ti|] eqn:Hti.
  2:{ exists cur, w, [], [].
      repeat split; apply get_child_loop_done; now right. }
  pose proof (first_index_bounds path DOT (e' - begin) begin) as Hb.
  pose proof (first_index_before path DOT (e' - begin) begin) as Hbefore.
  pose proof (first_index_hit path DOT (e' - begin) begin) as Hhit.
  assert (Hv : first_index path DOT (e' - begin) begin
               = first_index path DOT (S e' - begin) begin).
  { apply first_index_unique; [lia|exact Hbefore|].
    intros _.
    destruct (Nat.eq_dec (first_index path DOT (e' - begin) begin) e') as [->|Hne];
      [exact Hdot|apply Hhit; lia]. }
  remember (first_index path DOT (e' - begin) begin) as v eqn:Ev.
  assert (Hlt' : begin < S e') by lia.
  destruct (get_property_info_runs static_data path ti begin (v - begin))
    as (r & levs & Hlook & _ & _ & _).
  destruct r as [p|].
  - assert (Hrest : exists h w' evs evs',
               runs_to (get_child_loop static_data fuel path
                          (Nat.min e' (v + 1)) e'
                          (set_type_info (fst (getter p cur w)) (type_info p)))
                       (snd (getter p cur w)) h w' evs /\
               runs_to (get_child_loop static_data (S fuel) path
                          (Nat.min (S e') (v + 1)) (S e')
                          (set_type_info (fst (getter p cur w)) (type_info p)))
                       (snd (getter p cur w)) h w' evs' /\
               filter is_lookup_or_getter evs = filter is_lookup_or_getter evs').
    { destruct (Nat.eq_dec v e') as [Heq|Hne].
      - exists (set_type_info (fst (getter p cur w)) (type_info p)),
          (snd (getter p cur w)), [], [].
        repeat split; apply get_child_loop_done; left; lia.
      - assert (Hvdot : path v = DOT) by (apply Hhit; lia).
        assert (Hnext : v + 1 < e').
        { destruct (Nat.eq_dec v (e' - 1)) as [Hl|Hl]; [|lia].
          exfalso. apply Hprev. now rewrite <- Hl. }
        replace (Nat.min e' (v + 1)) with (v + 1) by lia.
        replace (Nat.min (S e') (v + 1)) with (v + 1) by lia.
        apply IH; lia. }
    destruct Hrest as (h & w' & evs & evs' & Hrun & Hrun' & Hfilter).
    exists h, w',
      (find_reads begin e' v ++ (EvLookup ti begin (v - begin) :: levs)
         ++ [EvGetter (name p)] ++ evs),
      (find_reads begin (S e') v ++ (EvLookup ti begin (v - begin) :: levs)
         ++ [EvGetter (name p)] ++ evs').
    split; [|split].
    + rewrite Ev.
      apply (get_child_loop_found static_data path e' fuel begin cur ti p);
        auto; rewrite <- Ev; auto.
    + rewrite Hv.
      apply (get_child_loop_found static_data path (S e') (S fuel) begin cur ti p);
        auto; rewrite <- Hv; auto.
    + rewrite !filter_app, !(filter_reads_nil (find_reads _ _ _)),
        Hfilter by apply find_reads_are_reads.
      reflexivity.
  - exists (set_type_info cur None), w,
      (find_reads begin e' v ++ (EvLookup ti begin (v - begin) :: levs)),
      (find_reads begin (S e') v ++ (EvLookup ti begin (v - begin) :: levs)).
    split; [|split].
    + rewrite Ev.
      apply (get_child_loop_not_found static_data path e' fuel begin cur ti);
        auto; rewrite <- Ev; auto.
    + rewrite Hv.
      apply (get_child_loop_not_found static_data path (S e') (S fuel) begin cur ti);
        auto; rewrite <- Hv; auto.
    + rewrite !filter_app, !(filter_reads_nil (find_reads _ _ _))
        by apply find_reads_are_reads.
      reflexivity.
Qed.

End TrailingDot.

(** C4, as the code has it: when the byte just before the logical end is a
    '.' that follows a byte other than '.', that trailing dot only ends the
    last token.  No empty token comes after it: get_child returns the same
    handle and the same application state, after the same lookups and getter
    calls, as on the path cut before the dot. *)
Theorem get_child_trailing_dot {W}
    (static_data : TypeInfoRef -> TypeInfo W) (self : Introspectable)
    (path : nat -> ascii) (length : nat) (w : W) :
  let e := logical_end path length in
  2 <= e ->
  path (e - 1) = DOT ->
  path (e - 2) <> DOT ->
  exists h w' evs evs',
    runs_to (get_child static_data self path (e - 1)) w h w' evs /\
    runs_to (get_child static_data self path length) w h w' evs' /\
    filter is_lookup_or_getter evs = filter is_lookup_or_getter evs'.
Proof.
  intros e He Hdot Hprev.
  assert (Hprev' : path (e - 1 - 1) <> DOT)
    by (now replace (e - 1 - 1) with (e - 2) by lia).
  destruct (get_child_loop_trailing_dot static_data path (e - 1) Hdot Hprev'
              (e - 1) 0 self w) as (h & w' & evs & evs' & Hrun & Hrun' & Hfilter);
    [lia | lia |].
  replace (S (e - 1)) with e in Hrun' by lia.
  assert (Hcut : e - 1 = logical_end path (e - 1))
    by (symmetry; apply (logical_end_truncate path length); fold e; lia).
  exists h, w', (find_reads 0 (e - 1) (e - 1) ++ evs), (find_reads 0 length e ++ evs').
  split; [|split].
  - exact (get_child_runs_from_loop static_data path (e - 1) self (e - 1) w h w' evs
             Hcut Hrun).
  - exact (get_child_runs_from_loop static_data path e self length w h w' evs'
             eq_refl Hrun').
  - rewrite !filter_app, !(filter_reads_nil (find_reads _ _ _))
      by apply find_reads_are_reads.
    exact Hfilter.
Qed.

Lemma get_child_trailing_dot_witness :
  2 <= logical_end (c_str "a.") 2
  /\ c_str "a." (logical_end (c_str "a.") 2 - 1) = DOT
  /\ c_str "a." (logical_end (c_str "a.") 2 - 2) <> DOT
  /\ exists h w' evs evs',
      runs_to (get_child Demo.static_data Demo.root (c_str "a.")
                 (logical_end (c_str "a.") 2 - 1)) Demo.memory h w' evs /\
      runs_to (get_child Demo.static_data Demo.root (c_str "a.") 2)
              Demo.memory h w' evs' /\
      filter is_lookup_or_getter evs = filter is_lookup_or_getter evs'.
Proof.
  split; [vm_compute; lia|]. split; [reflexivity|]. split; [discriminate|].
  apply (get_child_trailing_dot Demo.static_data Demo.root (c_str "a.") 2
           Demo.memory).
  - vm_compute. lia.
  - reflexivity.
  - discriminate.
Defined.

(** C4, as stated, fails on "a.": the handle returned is the valid one for
    [a], and the only lookup made is that of the token "a". *)
Lemma get_child_trailing_dot_is_valid :
  get_child Demo.static_data Demo.root (c_str "a.") 2 Demo.s0
  = Some ({| storage_ := [Byte.x00]; type_info_ := Some 1 |},
          {| world := Demo.memory;
             log := [EvRead 0; EvRead 1;
                     EvRead 0; EvRead 1; EvLookup 0 0 1; EvRead 0; EvGetter "a"] |})
  /\ is_valid {| storage_ := [Byte.x00]; type_info_ := Some 1 |} = true.
Proof. split; reflexivity. Qed.


(** * Further properties of the lookup *)

Lemma char_diff_nonzero (c1 c2 : ascii) :
  c1 <> c2 -> (char_diff c1 c2 =? 0)%Z = false.
Proof.
  intros Hne. apply Z.eqb_neq. unfold char_diff. intros H.
  apply Hne. rewrite <- (ascii_nat_embedding c1), <- (ascii_nat_embedding c2).
  f_equal. lia.
Qed.

(** On a token without null bytes strncmp answers 0 exactly when the stored
    name starts with the token. *)
Lemma strncmp_has_prefix {W} (path : nat -> ascii) (n s1 : nat) (s2 : string) :
  (forall i, i < n -> path (s1 + i) <> NUL) ->
  exists (v : Z) (k : nat),
    k <= n /\
    (forall w : W, runs_to (strncmp path s1 s2 n) w v w (map EvRead (seq s1 k))) /\
    (v =? 0)%Z = has_prefix path s1 s2 n.
Proof.
  revert s1 s2. induction n as [|n IH]; intros s1 s2 Hnul.
  - exists 0%Z, 0. split; [lia|]. split; [|reflexivity]. intros w. apply runs_ret.
  - assert (H0 : path s1 <> NUL).
    { specialize (Hnul 0 (Nat.lt_0_succ n)). now rewrite Nat.add_0_r in Hnul. }
    apply Ascii.eqb_neq in H0 as H0b.
    destruct s2 as [|c r]; cbn [strncmp has_prefix].
    + exists (char_diff (path s1) NUL), 1. split; [lia|]. split.
      * intros w. change (map EvRead (seq s1 1)) with ([EvRead s1] ++ []).
        eapply runs_bind; [apply runs_read_path|].
        cbn beta. rewrite H0b. apply runs_ret.
      * now apply char_diff_nonzero.
    + destruct (Ascii.eqb_spec (path s1) c) as [E|E].
      * destruct (IH (S s1) r) as (v & k & Hk & Hrun & Hv).
        { intros i Hi. replace (S s1 + i) with (s1 + S i) by lia.
          apply Hnul. lia. }
        exists v, (S k). split; [lia|]. split; [|exact Hv].
        intros w. cbn [seq map].
        change (EvRead s1 :: ?l) with ([EvRead s1] ++ l).
        eapply runs_bind; [apply runs_read_path|].
        cbn beta. rewrite <- E, Ascii.eqb_refl, H0b. apply Hrun.
      * exists (char_diff (path s1) c), 1. split; [lia|]. split.
        -- intros w. change (map EvRead (seq s1 1)) with ([EvRead s1] ++ []).
           eapply runs_bind; [apply runs_read_path|].
           cbn beta. apply Ascii.eqb_neq in E. rewrite E. apply runs_ret.
        -- now apply char_diff_nonzero.
Qed.

Lemma scan_table_first_with_prefix {W} (path : nat -> ascii) (name_ length : nat)
    (table : list (PropertyInfo W)) :
  (forall i, i < length -> path (name_ + i) <> NUL) ->
  exists evs,
    (forall w : W, runs_to (scan_table path name_ length table) w
                     (first_with_prefix path name_ length table) w evs) /\
    forallb is_read evs = true /\
    Forall (ev_below (name_ + length)) evs.
Proof.
  intros Hnul. induction table as [|prop rest IH].
  - exists []. repeat split; try constructor. intros w. apply runs_ret.
  - destruct (strncmp_has_prefix (W:=W) path length name_ (name prop) Hnul)
      as (v & k & Hk & Hcmp & Hv).
    unfold first_with_prefix. cbn [scan_table find]. rewrite <- Hv.
    destruct (Z.eqb v 0) eqn:Ev.
    + exists (map EvRead (seq name_ k)). repeat split.
      * intros w. eapply runs_to_events.
        { eapply runs_bind; [apply Hcmp|]. rewrite Ev. apply runs_ret. }
        apply app_nil_r.
      * apply reads_are_reads.
      * apply reads_below_app. lia.
    + destruct IH as (evs & Hrun & Hreads & Hbelow).
      exists (map EvRead (seq name_ k) ++ evs). repeat split.
      * intros w. eapply runs_bind; [apply Hcmp|]. rewrite Ev. apply Hrun.
      * rewrite forallb_app, reads_are_reads. exact Hreads.
      * apply Forall_app. split; [apply reads_below_app; lia|exact Hbelow].
Qed.

Lemma get_property_info_prefix_spec {W}
    (static_data : TypeInfoRef -> TypeInfo W) (this : TypeInfoRef)
    (path : nat -> ascii) (name_ length : nat) :
  (forall i, i < length -> path (name_ + i) <> NUL) ->
  exists evs,
    (forall w : W,
        runs_to (get_property_info static_data this path name_ length) w
          (first_with_prefix path name_ length (property_table_ (static_data this)))
          w (EvLookup this name_ length :: evs)) /\
    forallb is_read evs = true /\
    Forall (ev_below (name_ + length)) evs.
Proof.
  intros Hnul.
  destruct (scan_table_first_with_prefix path name_ length
              (property_table_ (static_data this)) Hnul)
    as (evs & Hrun & Hreads & Hbelow).
  exists evs. repeat split; auto.
  intros w. unfold get_property_info.
  change (EvLookup this name_ length :: evs)
    with ([EvLookup this name_ length] ++ evs).
  eapply runs_bind; [apply runs_tell|]. apply Hrun.
Qed.




(** * Further properties of the traversal *)

Section TraversalSteps.

Context {W : Type}.
Variable static_data : TypeInfoRef -> TypeInfo W.
Variable path : nat -> ascii.
Variable end_ : nat.

(** One iteration, whatever the lookup answers. *)
Lemma get_child_loop_step fuel begin cur ti r evs (w : W) h w' rest :
  begin < end_ ->
  type_info_ cur = Some ti ->
  runs_to (get_property_info static_data ti path begin
             (first_index path DOT (end_ - begin) begin - begin))
          w r w evs ->
  runs_to (get_child_loop static_data fuel path
             (Nat.min end_ (first_index path DOT (end_ - begin) begin + 1)) end_
             (fst (step_result r cur w)))
          (snd (step_result r cur w)) h w' rest ->
  runs_to (get_child_loop static_data (S fuel) path begin end_ cur) w h w'
          (find_reads begin end_ (first_index path DOT (end_ - begin) begin)
           ++ evs
           ++ match r with Some p => [EvGetter (name p)] | None => [] end
           ++ rest).
Proof.
  intros Hlt Hti Hlook Hrest. destruct r as [p|]; cbn [step_result fst snd] in Hrest.
  - eapply get_child_loop_found; eauto.
  - assert (Hd : runs_to (get_child_loop static_data fuel path
                            (Nat.min end_ (first_index path DOT (end_ - begin) begin + 1))
                            end_ (set_type_info cur None)) w (set_type_info cur None) w [])
      by (apply get_child_loop_done; now right).
    destruct (runs_det _ _ _ _ _ _ _ _ Hrest Hd) as (-> & -> & ->).
    cbn [app]. rewrite app_nil_r.
    eapply get_child_loop_not_found; eauto.
Qed.

Lemma lookup_in_empty_table ti name_ length (w : W) :
  property_table_ (static_data ti) = [] ->
  runs_to (get_property_info static_data ti path name_ length) w None w
          [EvLookup ti name_ length].
Proof.
  intros Htable. unfold get_property_info. rewrite Htable.
  change [EvLookup ti name_ length] with ([EvLookup ti name_ length] ++ []).
  eapply runs_bind; [apply runs_tell|apply runs_ret].
Qed.

(** What the getters of registered properties preserve, the loop preserves:
    [I] for application memory, [R] for the descriptor of the handle. *)
Lemma get_child_loop_invariant (I : W -> Prop) (R : TypeInfoRef -> Prop) :
  (forall ti p cur w, R ti -> In p (property_table_ (static_data ti)) ->
                      I w -> I (snd (getter p cur w))) ->
  (forall ti p t, R ti -> In p (property_table_ (static_data ti)) ->
                  type_info p = Some t -> R t) ->
  forall fuel begin cur w,
    end_ - begin <= fuel ->
    (forall t, type_info_ cur = Some t -> R t) ->
    I w ->
    exists h w' evs,
      runs_to (get_child_loop static_data fuel path begin end_ cur) w h w' evs /\
      I w' /\
      (forall t, type_info_ h = Some t -> R t).
Proof.
  intros Hget Hclosed.
  induction fuel as [|fuel IH]; intros begin cur w Hfuel HR HI.
  - exists cur, w, []. split; [|now split].
    apply get_child_loop_done. left. lia.
  - destruct (Nat.lt_ge_cases begin end_) as [Hlt|Hge].
    2:{ exists cur, w, []. split; [|now split].
        apply get_child_loop_done. now left. }
    destruct (type_info_ cur) as [ti|] eqn:Hti.
    2:{ exists cur, w, []. split; [|split; [exact HI|]].
        - apply get_child_loop_done. now right.
        - intros t Ht. rewrite Hti in Ht. discriminate. }
    pose proof (first_index_bounds path DOT (end_ - begin) begin) as Hb.
    destruct (get_property_info_runs static_data path ti begin
                (first_index path DOT (end_ - begin) begin - begin))
      as (r & evs & Hlook & _ & _ & Hin).
    destruct r as [p|].
    + specialize (Hin p eq_refl).
      destruct (IH (Nat.min end_ (first_index path DOT (end_ - begin) begin + 1))
                  (set_type_info (fst (getter p cur w)) (type_info p))
                  (snd (getter p cur w)))
        as (h & w' & rest & Hrest & HI' & HR').
      * lia.
      * cbn. intros t Ht. eapply Hclosed; eauto.
      * eapply Hget; eauto.
      * exists h, w'. eexists. split; [|now split].
        eapply get_child_loop_found; eauto.
    + exists (set_type_info cur None), w. eexists. split; [|split; [exact HI|]].
      * eapply get_child_loop_not_found; eauto.
      * cbn. discriminate.
Qed.

End TraversalSteps.



(** X3: below a descriptor with an empty table (a leaf such as the adapter
    singletons) nothing resolves: on any non-empty path get_child makes one
    lookup, calls no getter, and returns the receiver invalidated, storage
    and application memory untouched. *)
Theorem get_child_below_leaf {W}
    (static_data : TypeInfoRef -> TypeInfo W) (self : Introspectable)
    (ti : TypeInfoRef) (path : nat -> ascii) (length : nat) (w : W) :
  type_info_ self = Some ti ->
  property_table_ (static_data ti) = [] ->
  0 < logical_end path length ->
  runs_to (get_child static_data self path length) w
    {| storage_ := storage_ self; type_info_ := None |} w
    (find_reads 0 length (logical_end path length)
     ++ find_reads 0 (logical_end path length)
          (first_index path DOT (logical_end path length) 0)
     ++ [EvLookup ti 0 (first_index path DOT (logical_end path length) 0)]).
Proof.
  intros Hti Htable Hpos.
  set (e := logical_end path length) in *.
  apply (get_child_runs_from_loop static_data path e); [reflexivity|].
  destruct e as [|e1] eqn:Ee; [lia|].
  pose proof (get_child_loop_not_found static_data path (S e1) e1 0 self ti
                [EvLookup ti 0 (first_index path DOT (S e1 - 0) 0 - 0)] w
                (Nat.lt_0_succ e1) Hti
                (lookup_in_empty_table static_data path ti 0 _ w Htable)) as Hrun.
  rewrite !Nat.sub_0_r in Hrun. exact Hrun.
Qed.

Lemma get_child_below_leaf_witness :
  type_info_ {| storage_ := [Byte.x01]; type_info_ := Some 3 |} = Some 3
  /\ property_table_ (Demo.static_data 3) = []
  /\ 0 < logical_end (c_str "d.a") 3
  /\ runs_to (get_child Demo.static_data
                {| storage_ := [Byte.x01]; type_info_ := Some 3 |} (c_str "d.a") 3)
             Demo.memory {| storage_ := [Byte.x01]; type_info_ := None |} Demo.memory
             [EvRead 0; EvRead 1; EvRead 2; EvRead 0; EvRead 1; EvLookup 3 0 1].
Proof.
  split; [reflexivity|]. split; [reflexivity|]. split; [vm_compute; lia|].
  apply (get_child_below_leaf Demo.static_data
           {| storage_ := [Byte.x01]; type_info_ := Some 3 |} 3 (c_str "d.a") 3
           Demo.memory eq_refl eq_refl).
  vm_compute. lia.
Defined.

(** X4: application memory changes only through the getters of registered
    properties: a property of application memory that every such getter
    preserves still holds when get_child returns. *)
Theorem get_child_preserves_memory_invariant {W}
    (static_data : TypeInfoRef -> TypeInfo W) (self : Introspectable)
    (path : nat -> ascii) (length : nat) (I : W -> Prop) (w : W) :
  (forall ti p cur w0, In p (property_table_ (static_data ti)) ->
                       I w0 -> I (snd (getter p cur w0))) ->
  I w ->
  exists h w' evs,
    runs_to (get_child static_data self path length) w h w' evs /\ I w'.
Proof.
  intros Hget HI.
  destruct (get_child_loop_invariant static_data path (logical_end path length)
              I (fun _ => True)
              (fun ti p cur w0 _ => Hget ti p cur w0)
              (fun _ _ _ _ _ _ => Logic.I)
              (logical_end path length) 0 self w
              (Nat.le_sub_l _ _) (fun _ _ => Logic.I) HI)
    as (h & w' & evs & Hrun & HI' & _).
  exists h, w'. eexists. split; [|exact HI'].
  eapply get_child_runs_from_loop; [reflexivity|exact Hrun].
Qed.

Lemma get_child_preserves_memory_invariant_witness :
  (forall ti p cur w0, In p (property_table_ (Demo.static_data ti)) ->
                       List.length w0 = 4 -> List.length (snd (getter p cur w0)) = 4)
  /\ List.length Demo.memory = 4
  /\ exists h w' evs,
      runs_to (get_child Demo.static_data Demo.root (c_str "a.x.b") 5)
              Demo.memory h w' evs /\ List.length w' = 4.
Proof.
  assert (H : forall ti p cur w0, In p (property_table_ (Demo.static_data ti)) ->
                List.length w0 = 4 -> List.length (snd (getter p cur w0)) = 4).
  { intros [|[|[|ti]]] p cur w0; cbn; intros Hin Hw;
      repeat (destruct Hin as [<-|Hin]; [exact Hw|]); destruct Hin. }
  split; [exact H|]. split; [reflexivity|].
  exact (get_child_preserves_memory_invariant Demo.static_data Demo.root
           (c_str "a.x.b") 5 (fun w0 => List.length w0 = 4) Demo.memory H eq_refl).
Defined.

(** X5: the descriptor of the handle that get_child returns is null or
    reachable from the receiver's: it lies in every set of descriptors that
    contains the receiver's and is closed under the [type_info] links of the
    property tables. *)
Theorem get_child_descriptor_reachable {W}
    (static_data : TypeInfoRef -> TypeInfo W) (self : Introspectable)
    (path : nat -> ascii) (length : nat) (R : TypeInfoRef -> Prop) (w : W) :
  (forall ti p t, R ti -> In p (property_table_ (static_data ti)) ->
                  type_info p = Some t -> R t) ->
  (forall t, type_info_ self = Some t -> R t) ->
  exists h w' evs,
    runs_to (get_child static_data self path length) w h w' evs /\
    (forall t, type_info_ h = Some t -> R t).
Proof.
  intros Hclosed HR.
  destruct (get_child_loop_invariant static_data path (logical_end path length)
              (fun _ => True) R
              (fun _ _ _ _ _ _ _ => Logic.I) Hclosed
              (logical_end path length) 0 self w
              (Nat.le_sub_l _ _) HR Logic.I)
    as (h & w' & evs & Hrun & _ & HR').
  exists h, w'. eexists. split; [|exact HR'].
  eapply get_child_runs_from_loop; [reflexivity|exact Hrun].
Qed.

Lemma get_child_descriptor_reachable_witness :
  (forall ti p t, 1 <= ti <= 3 -> In p (property_table_ (Demo.static_data ti)) ->
                  type_info p = Some t -> 1 <= t <= 3)
  /\ (forall t, type_info_ {| storage_ := [Byte.x00]; type_info_ := Some 1 |} = Some t ->
                1 <= t <= 3)
  /\ exists h w' evs,
      runs_to (get_child Demo.static_data
                 {| storage_ := [Byte.x00]; type_info_ := Some 1 |} (c_str "x.b") 3)
              Demo.memory h w' evs /\
      (forall t, type_info_ h = Some t -> 1 <= t <= 3).
Proof.
  assert (H : forall ti p t, 1 <= ti <= 3 ->
                In p (property_table_ (Demo.static_data ti)) ->
                type_info p = Some t -> 1 <= t <= 3).
  { intros [|[|[|ti]]] p t Hti; cbn; intros Hin Ht;
      repeat (destruct Hin as [<-|Hin]; [cbn in Ht; injection Ht as <-; lia|]);
      destruct Hin. }
  assert (H0 : forall t, type_info_ {| storage_ := [Byte.x00]; type_info_ := Some 1 |}
                         = Some t -> 1 <= t <= 3).
  { cbn. intros t [= <-]. lia. }
  split; [exact H|]. split; [exact H0|].
  exact (get_child_descriptor_reachable Demo.static_data
           {| storage_ := [Byte.x00]; type_info_ := Some 1 |} (c_str "x.b") 3
           (fun t => 1 <= t <= 3) Demo.memory H H0).
Defined.


(** * The result depends on the path only below its logical end *)

Section Extensionality.

Context {W : Type}.
Variable static_data : TypeInfoRef -> TypeInfo W.
Variables path1 path2 : nat -> ascii.

Lemma find_loop_ext value n first (s : St W) :
  (forall i, first <= i < first + n -> path1 i = path2 i) ->
  find_loop path1 value n first s = find_loop path2 value n first s.
Proof.
  revert first s. induction n as [|n IH]; intros first s Hagree; [reflexivity|].
  cbn [find_loop]. unfold bind, read_path, tell, ret. cbn.
  rewrite (Hagree first) by lia.
  destruct (Ascii.eqb (path2 first) value); [reflexivity|].
  apply IH. intros i Hi. apply Hagree. lia.
Qed.

Lemma strncmp_ext n s1 s2 (s : St W) :
  (forall i, s1 <= i < s1 + n -> path1 i = path2 i) ->
  strncmp path1 s1 s2 n s = strncmp path2 s1 s2 n s.
Proof.
  revert s1 s2 s. induction n as [|n IH]; intros s1 s2 s Hagree; [reflexivity|].
  cbn [strncmp]. unfold bind, read_path, tell, ret. cbn.
  rewrite (Hagree s1) by lia.
  destruct s2 as [|c r].
  - destruct (Ascii.eqb (path2 s1) NUL); reflexivity.
  - destruct (Ascii.eqb (path2 s1) c); [|reflexivity].
    destruct (Ascii.eqb (path2 s1) NUL); [reflexivity|].
    apply IH. intros i Hi. apply Hagree. lia.
Qed.

Lemma scan_table_ext name_ length (table : list (PropertyInfo W)) (s : St W) :
  (forall i, name_ <= i < name_ + length -> path1 i = path2 i) ->
  scan_table path1 name_ length table s = scan_table path2 name_ length table s.
Proof.
  intros Hagree. revert s. induction table as [|prop rest IH]; intros s; [reflexivity|].
  cbn [scan_table]. unfold bind. rewrite (strncmp_ext _ _ _ _ Hagree).
  destruct (strncmp path2 name_ (name prop) length s) as [[r s']|]; [|reflexivity].
  destruct (Z.eqb r 0); [reflexivity|apply IH].
Qed.

Lemma get_property_info_ext this name_ length (s : St W) :
  (forall i, name_ <= i < name_ + length -> path1 i = path2 i) ->
  get_property_info static_data this path1 name_ length s
  = get_property_info static_data this path2 name_ length s.
Proof.
  intros Hagree. unfold get_property_info, bind, tell.
  now apply scan_table_ext.
Qed.

Lemma bind_ext {A B} (m1 m2 : M W A) (k1 k2 : A -> M W B) (s : St W) :
  m1 s = m2 s ->
  (forall a s', m2 s = Some (a, s') -> k1 a s' = k2 a s') ->
  bind m1 k1 s = bind m2 k2 s.
Proof.
  intros Hm Hk. unfold bind. rewrite Hm.
  destruct (m2 s) as [[a s']|]; [|reflexivity]. now apply Hk.
Qed.

Lemma get_child_loop_ext end_ fuel :
  (forall i, i < end_ -> path1 i = path2 i) ->
  forall begin cur (s : St W),
    get_child_loop static_data fuel path1 begin end_ cur s
    = get_child_loop static_data fuel path2 begin end_ cur s.
Proof.
  intros Hagree. induction fuel as [|fuel IH]; intros begin cur s; [reflexivity|].
  cbn [get_child_loop].
  destruct (Nat.ltb_spec begin end_) as [Hlt|Hge]; [|reflexivity].
  destruct (type_info_ cur) as [ti|]; [|reflexivity].
  apply bind_ext.
  - apply find_loop_ext. intros i Hi. apply Hagree. lia.
  - intros eot s' Hfind. destruct s as [w lg].
    unfold std_find in Hfind.
    rewrite (find_loop_runs path2 DOT (end_ - begin) begin w lg) in Hfind.
    injection Hfind as <- _.
    pose proof (first_index_bounds path2 DOT (end_ - begin) begin) as Hb.
    apply bind_ext.
    + apply get_property_info_ext. intros i Hi. apply Hagree. lia.
    + intros r s'' _. apply bind_ext; [reflexivity|].
      intros c s3 _. apply IH.
Qed.

End Extensionality.

(** X6: two calls of get_child on the same receiver whose paths have the
    same logical end and the same bytes below it return the same handle,
    leave the same application memory and run the same traversal; what the
    buffers hold from the logical end on, and how large the length bounds
    are beyond it, makes no difference. *)
Theorem get_child_depends_on_logical_path {W}
    (static_data : TypeInfoRef -> TypeInfo W) (self : Introspectable)
    (path1 path2 : nat -> ascii) (length1 length2 : nat) (w : W) :
  logical_end path1 length1 = logical_end path2 length2 ->
  (forall i, i < logical_end path1 length1 -> path1 i = path2 i) ->
  exists h w' evs,
    runs_to (get_child static_data self path1 length1) w h w'
            (find_reads 0 length1 (logical_end path1 length1) ++ evs) /\
    runs_to (get_child static_data self path2 length2) w h w'
            (find_reads 0 length2 (logical_end path2 length2) ++ evs).
Proof.
  intros Hend Hagree.
  destruct (get_child_loop_runs static_data path1 (logical_end path1 length1)
              (logical_end path1 length1) 0 self w) as (h & w' & evs & Hrun & _);
    [lia|].
  exists h, w', evs. split.
  - now apply get_child_runs_from_loop.
  - apply (get_child_runs_from_loop static_data path2 (logical_end path2 length2));
      [reflexivity|].
    rewrite <- Hend. intros lg.
    rewrite <- (get_child_loop_ext static_data path1 path2 _ _ Hagree).
    apply Hrun.
Qed.

Lemma get_child_depends_on_logical_path_witness :
  logical_end (c_str "a.x") 3 = logical_end (c_str "a.x") 64
  /\ (forall i, i < logical_end (c_str "a.x") 3 -> c_str "a.x" i = c_str "a.x" i)
  /\ exists h w' evs,
      runs_to (get_child Demo.static_data Demo.root (c_str "a.x") 3) Demo.memory h w'
              (find_reads 0 3 (logical_end (c_str "a.x") 3) ++ evs) /\
      runs_to (get_child Demo.static_data Demo.root (c_str "a.x") 64) Demo.memory h w'
              (find_reads 0 64 (logical_end (c_str "a.x") 64) ++ evs).
Proof.
  split; [reflexivity|]. split; [reflexivity|].
  apply (get_child_depends_on_logical_path Demo.static_data Demo.root
           (c_str "a.x") (c_str "a.x") 3 64 Demo.memory).
  - reflexivity.
  - reflexivity.
Defined.


(** * Traversal from further on in the buffer *)

Section Advance.

Context {W : Type}.
Variable static_data : TypeInfoRef -> TypeInfo W.
Variable path : nat -> ascii.
Variable k : nat.

Lemma first_index_advance value n first :
  first_index path value n (k + first)
  = k + first_index (advance path k) value n first.
Proof.
  revert first. induction n as [|n IH]; intros first; [reflexivity|].
  cbn [first_index]. unfold advance at 1.
  destruct (Ascii.eqb (path (k + first)) value); [reflexivity|].
  rewrite <- IH. f_equal. lia.
Qed.

Lemma shift_reads first m :
  map (shift_event k) (map EvRead (seq first m)) = map EvRead (seq (k + first) m).
Proof.
  revert first. induction m as [|m IH]; intros first; [reflexivity|].
  cbn [seq map shift_event]. f_equal.
  rewrite IH. f_equal. f_equal. lia.
Qed.

Lemma find_reads_shift first last v :
  first <= last ->
  map (shift_event k) (find_reads first last v)
  = find_reads (k + first) (k + last) (k + v).
Proof.
  intros Hle. unfold find_reads. rewrite shift_reads. f_equal. f_equal. lia.
Qed.

Lemma shift_keeps_kind (evs : list Event) :
  filter is_lookup_or_getter (map (shift_event k) evs)
  = map (shift_event k) (filter is_lookup_or_getter evs).
Proof.
  induction evs as [|e evs IH]; [reflexivity|].
  cbn [map filter]. destruct e; cbn; now rewrite IH.
Qed.

Lemma strncmp_advance n :
  forall s1 s2,
  exists (v : Z) (m : nat),
    (forall w : W, runs_to (strncmp (advance path k) s1 s2 n) w v w
                     (map EvRead (seq s1 m))) /\
    (forall w : W, runs_to (strncmp path (k + s1) s2 n) w v w
                     (map EvRead (seq (k + s1) m))).
Proof.
  induction n as [|n IH]; intros s1 s2.
  - exists 0%Z, 0. split; intros w; apply runs_ret.
  - cbn [strncmp].
    set (hd := match s2 with EmptyString => (NUL, EmptyString) | String c r => (c, r) end).
    destruct hd as [c2 s2'].
    assert (Hadv : advance path k s1 = path (k + s1)) by reflexivity.
    destruct (Ascii.eqb (path (k + s1)) c2) eqn:E1.
    + destruct (Ascii.eqb (path (k + s1)) NUL) eqn:E2.
      * exists 0%Z, 1. split; intros w.
        -- change (map EvRead (seq s1 1)) with ([EvRead s1] ++ []).
           eapply runs_bind; [apply runs_read_path|].
           cbn beta. rewrite Hadv, E1, E2. apply runs_ret.
        -- change (map EvRead (seq (k + s1) 1)) with ([EvRead (k + s1)] ++ []).
           eapply runs_bind; [apply runs_read_path|].
           cbn beta. rewrite E1, E2. apply runs_ret.
      * destruct (IH (S s1) s2') as (v & m & Hrun & Hrun').
        replace (k + S s1) with (S (k + s1)) in Hrun' by lia.
        exists v, (S m). split; intros w; cbn [seq map].
        -- change (EvRead s1 :: ?l) with ([EvRead s1] ++ l).
           eapply runs_bind; [apply runs_read_path|].
           cbn beta. rewrite Hadv, E1, E2. apply Hrun.
        -- change (EvRead (k + s1) :: ?l) with ([EvRead (k + s1)] ++ l).
           eapply runs_bind; [apply runs_read_path|].
           cbn beta. rewrite E1, E2. apply Hrun'.
    + exists (char_diff (path (k + s1)) c2), 1. split; intros w.
      * change (map EvRead (seq s1 1)) with ([EvRead s1] ++ []).
        eapply runs_bind; [apply runs_read_path|].
        cbn beta. rewrite Hadv, E1. apply runs_ret.
      * change (map EvRead (seq (k + s1) 1)) with ([EvRead (k + s1)] ++ []).
        eapply runs_bind; [apply runs_read_path|].
        cbn beta. rewrite E1. apply runs_ret.
Qed.

Lemma scan_table_advance name_ length (table : list (PropertyInfo W)) :
  exists r evs,
    (forall w : W, runs_to (scan_table (advance path k) name_ length table) w r w evs) /\
    (forall w : W, runs_to (scan_table path (k + name_) length table) w r w
                     (map (shift_event k) evs)).
Proof.
  induction table as [|prop rest IH].
  - exists None, []. split; intros w; apply runs_ret.
  - destruct (strncmp_advance length name_ (name prop)) as (v & m & Hcmp & Hcmp').
    cbn [scan_table]. destruct (Z.eqb v 0) eqn:Ev.
    + exists (Some prop), (map EvRead (seq name_ m)). split; intros w.
      * eapply runs_to_events.
        { eapply runs_bind; [apply Hcmp|]. rewrite Ev. apply runs_ret. }
        apply app_nil_r.
      * eapply runs_to_events.
        { eapply runs_bind; [apply Hcmp'|]. rewrite Ev. apply runs_ret. }
        rewrite app_nil_r. symmetry. apply shift_reads.
    + destruct IH as (r & evs & Hrun & Hrun').
      exists r, (map EvRead (seq name_ m) ++ evs). split; intros w.
      * eapply runs_bind; [apply Hcmp|]. rewrite Ev. apply Hrun.
      * rewrite map_app, shift_reads.
        eapply runs_bind; [apply Hcmp'|]. rewrite Ev. apply Hrun'.
Qed.

Lemma get_property_info_advance this name_ length :
  exists r evs,
    (forall w : W, runs_to (get_property_info static_data this (advance path k)
                              name_ length) w r w evs) /\
    (forall w : W, runs_to (get_property_info static_data this path
                              (k + name_) length) w r w (map (shift_event k) evs)).
Proof.
  destruct (scan_table_advance name_ length (property_table_ (static_data this)))
    as (r & evs & Hrun & Hrun').
  exists r, (EvLookup this name_ length :: evs).
  split; intros w; unfold get_property_info.
  - change (EvLookup this name_ length :: evs)
      with ([EvLookup this name_ length] ++ evs).
    eapply runs_bind; [apply runs_tell|apply Hrun].
  - cbn [map shift_event].
    change (EvLookup this (k + name_) length :: ?l)
      with ([EvLookup this (k + name_) length] ++ l).
    eapply runs_bind; [apply runs_tell|apply Hrun'].
Qed.

(** The loop on [path + k] over [begin, end_) is the loop on [path] over
    [k + begin, k + end_). *)
Lemma get_child_loop_advance end_ fuel :
  forall begin cur (w : W),
    end_ - begin <= fuel ->
    exists h w' evs,
      runs_to (get_child_loop static_data fuel (advance path k) begin end_ cur)
              w h w' evs /\
      runs_to (get_child_loop static_data fuel path (k + begin) (k + end_) cur)
              w h w' (map (shift_event k) evs).
Proof.
  induction fuel as [|fuel IH]; intros begin cur w Hfuel.
  - exists cur, w, []. split; apply get_child_loop_done; left; lia.
  - destruct (Nat.lt_ge_cases begin end_) as [Hlt|Hge].
    2:{ exists cur, w, []. split; apply get_child_loop_done; left; lia. }
    destruct (type_info_ cur) as [ti|] eqn:Hti.
    2:{ exists cur, w, []. split; apply get_child_loop_done; now right. }
    pose proof (first_index_bounds (advance path k) DOT (end_ - begin) begin) as Hb.
    remember (first_index (advance path k) DOT (end_ - begin) begin) as v eqn:Ev.
    assert (Hv : first_index path DOT (k + end_ - (k + begin)) (k + begin) = k + v).
    { replace (k + end_ - (k + begin)) with (end_ - begin) by lia.
      rewrite first_index_advance. now rewrite <- Ev. }
    destruct (get_property_info_advance ti begin (v - begin))
      as (r & evs & Hlook & Hlook').
    destruct (IH (Nat.min end_ (v + 1)) (fst (step_result r cur w))
                (snd (step_result r cur w)))
      as (h & w' & rest & Hrest & Hrest'); [lia|].
    exists h, w',
      (find_reads begin end_ v ++ evs
       ++ match r with Some p => [EvGetter (name p)] | None => [] end ++ rest).
    split.
    + rewrite Ev.
      apply (get_child_loop_step static_data (advance path k) end_ fuel begin cur ti);
        auto; rewrite <- Ev; auto.
    + pose proof (get_child_loop_step static_data path (k + end_) fuel (k + begin)
                    cur ti r (map (shift_event k) evs) w h w'
                    (map (shift_event k) rest)) as Hstep.
      rewrite Hv in Hstep.
      replace (k + v - (k + begin)) with (v - begin) in Hstep by lia.
      replace (Nat.min (k + end_) (k + v + 1)) with (k + Nat.min end_ (v + 1))
        in Hstep by lia.
      eapply runs_to_events.
      * apply Hstep; auto. lia.
      * rewrite !map_app, find_reads_shift by lia.
        now destruct r.
Qed.

End Advance.


(** * Traversal across a separator *)

Section Split.

Context {W : Type}.
Variable static_data : TypeInfoRef -> TypeInfo W.
Variable path : nat -> ascii.

(** [d] is the position of a separator that follows a non-separator and
    lies before the end [e]. *)
Variables d e : nat.
Hypothesis Hde : d < e.
Hypothesis Hdot : path d = DOT.
Hypothesis Hprev : path (d - 1) <> DOT.

Lemma get_child_loop_split fuel :
  forall begin cur (w : W),
    begin < d -> d - begin <= fuel ->
    exists h1 w1 evs1 h w' evs2 evs,
      runs_to (get_child_loop static_data fuel path begin d cur) w h1 w1 evs1 /\
      runs_to (get_child_loop static_data (e - (d + 1)) path (d + 1) e h1) w1 h w' evs2 /\
      runs_to (get_child_loop static_data (e - begin) path begin e cur) w h w' evs /\
      filter is_lookup_or_getter evs
      = filter is_lookup_or_getter evs1 ++ filter is_lookup_or_getter evs2.
Proof.
  induction fuel as [|fuel IH]; intros begin cur w Hlt Hfuel; [lia|].
  destruct (type_info_ cur) as [ti|] eqn:Hti.
  2:{ exists cur, w, [], cur, w, [], [].
      repeat split; apply get_child_loop_done; now right. }
  pose proof (first_index_bounds path DOT (d - begin) begin) as Hb.
  pose proof (first_index_before path DOT (d - begin) begin) as Hbefore.
  pose proof (first_index_hit path DOT (d - begin) begin) as Hhit.
  assert (Hv : first_index path DOT (d - begin) begin
               = first_index path DOT (e - begin) begin).
  { apply first_index_unique; [lia|exact Hbefore|].
    intros _.
    destruct (Nat.eq_dec (first_index path DOT (d - begin) begin) d) as [->|Hne];
      [exact Hdot|apply Hhit; lia]. }
  remember (first_index path DOT (d - begin) begin) as v eqn:Ev.
  destruct (get_property_info_runs static_data path ti begin (v - begin))
    as (r & levs & Hlook & _ & _ & _).
  assert (Hlt' : begin < e) by lia.
  assert (Hwhole : forall h w' rest,
             runs_to (get_child_loop static_data (e - begin - 1) path
                        (Nat.min e (v + 1)) e (fst (step_result r cur w)))
                     (snd (step_result r cur w)) h w' rest ->
             runs_to (get_child_loop static_data (e - begin) path begin e cur) w h w'
                     (find_reads begin e v ++ (EvLookup ti begin (v - begin) :: levs)
                      ++ match r with Some p => [EvGetter (name p)] | None => [] end
                      ++ rest)).
  { intros h w' rest Hrest.
    replace (e - begin) with (S (e - begin - 1)) by lia.
    rewrite Hv.
    apply (get_child_loop_step static_data path e (e - begin - 1) begin cur ti);
      auto; rewrite <- Hv; auto. }
  assert (Hfirst : forall h1 w1 rest,
             runs_to (get_child_loop static_data fuel path
                        (Nat.min d (v + 1)) d (fst (step_result r cur w)))
                     (snd (step_result r cur w)) h1 w1 rest ->
             runs_to (get_child_loop static_data (S fuel) path begin d cur) w h1 w1
                     (find_reads begin d v ++ (EvLookup ti begin (v - begin) :: levs)
                      ++ match r with Some p => [EvGetter (name p)] | None => [] end
                      ++ rest)).
  { intros h1 w1 rest Hrest. rewrite Ev.
    apply (get_child_loop_step static_data path d fuel begin cur ti);
      auto; rewrite <- Ev; auto. }
  destruct (Nat.eq_dec v d) as [Hvd|Hvd].
  - destruct (get_child_loop_runs static_data path e (e - (d + 1)) (d + 1)
                (fst (step_result r cur w)) (snd (step_result r cur w)))
      as (h & w' & evs2 & Hsecond & _); [lia|].
    exists (fst (step_result r cur w)), (snd (step_result r cur w)).
    eexists. exists h, w', evs2. eexists.
    split; [|split; [exact Hsecond|split]].
    + apply Hfirst. apply get_child_loop_done. left. lia.
    + apply Hwhole.
      replace (Nat.min e (v + 1)) with (d + 1) by lia.
      eapply get_child_loop_fuel; [| |exact Hsecond]; lia.
    + rewrite !filter_app, !(filter_reads_nil (find_reads _ _ _))
        by apply find_reads_are_reads.
      cbn [app filter]. now rewrite app_nil_r, <- !app_assoc.
  - assert (Hvdot : path v = DOT) by (apply Hhit; lia).
    assert (Hnext : v + 1 < d).
    { destruct (Nat.eq_dec v (d - 1)) as [Hl|Hl]; [|lia].
      exfalso. apply Hprev. now rewrite <- Hl. }
    destruct (IH (v + 1) (fst (step_result r cur w)) (snd (step_result r cur w)))
      as (h1 & w1 & evs1 & h & w' & evs2 & evs & Hrun1 & Hrun2 & Hrun & Hfilter);
      [lia|lia|].
    exists h1, w1. eexists. exists h, w', evs2. eexists.
    split; [|split; [exact Hrun2|split]].
    + apply Hfirst. replace (Nat.min d (v + 1)) with (v + 1) by lia. exact Hrun1.
    + apply Hwhole. replace (Nat.min e (v + 1)) with (v + 1) by lia.
      eapply get_child_loop_fuel; [| |exact Hrun]; lia.
    + rewrite !filter_app, !(filter_reads_nil (find_reads _ _ _)), Hfilter
        by apply find_reads_are_reads.
      cbn [app]. now rewrite <- !app_assoc.
Qed.

End Split.

Lemma logical_end_advance (path : nat -> ascii) (length k : nat) :
  k <= logical_end path length ->
  logical_end (advance path k) (length - k) = logical_end path length - k.
Proof.
  intros Hk. unfold logical_end in *.
  pose proof (first_index_bounds path NUL length 0) as Hb.
  symmetry. apply first_index_unique.
  - lia.
  - intros i Hi. unfold advance.
    apply (first_index_before path NUL length 0). lia.
  - intros Hlt. unfold advance.
    replace (k + (first_index path NUL length 0 - k))
      with (first_index path NUL length 0) by lia.
    apply first_index_hit. lia.
Qed.

(** X7: get_child composes across a separator.  When the byte at [d], before
    the logical end, is a '.' that follows a byte other than '.', resolving
    the whole path is resolving its first [d] bytes and then, from the handle
    and application memory so obtained, resolving what follows the
    separator; lookups and getter calls are those of the first call followed
    by those of the second. *)
Theorem get_child_compose {W}
    (static_data : TypeInfoRef -> TypeInfo W) (self : Introspectable)
    (path : nat -> ascii) (length d : nat) (w : W) :
  0 < d < logical_end path length ->
  path d = DOT ->
  path (d - 1) <> DOT ->
  exists h1 w1 evs1 h w' evs2 evs,
    runs_to (get_child static_data self path d) w h1 w1 evs1 /\
    runs_to (get_child static_data h1 (advance path (d + 1)) (length - (d + 1)))
            w1 h w' evs2 /\
    runs_to (get_child static_data self path length) w h w' evs /\
    filter is_lookup_or_getter evs
    = filter is_lookup_or_getter evs1
      ++ map (shift_event (d + 1)) (filter is_lookup_or_getter evs2).
Proof.
  intros Hd Hdot Hprev.
  set (e := logical_end path length) in *.
  destruct (get_child_loop_split static_data path d e (proj2 Hd) Hdot Hprev
              d 0 self w) as (h1 & w1 & evs1 & h & w' & evs2 & evs
                              & Hrun1 & Hrun2 & Hrun & Hfilter); [lia|lia|].
  rewrite Nat.sub_0_r in Hrun.
  assert (He2 : logical_end (advance path (d + 1)) (length - (d + 1)) = e - (d + 1))
    by (apply logical_end_advance; fold e; lia).
  destruct (get_child_loop_advance static_data path (d + 1) (e - (d + 1))
              (e - (d + 1)) 0 h1 w1) as (h' & w'' & evs2' & Hadv & Hadv'); [lia|].
  replace (d + 1 + 0) with (d + 1) in Hadv' by lia.
  replace (d + 1 + (e - (d + 1))) with e in Hadv' by lia.
  destruct (runs_det _ _ _ _ _ _ _ _ Hrun2 Hadv') as (<- & <- & ->).
  exists h1, w1. eexists. exists h, w'. eexists. eexists.
  split; [|split; [|split]].
  - apply (get_child_runs_from_loop static_data path d); [|exact Hrun1].
    symmetry. apply (logical_end_truncate path length). fold e. lia.
  - apply (get_child_runs_from_loop static_data (advance path (d + 1)) (e - (d + 1)));
      [now rewrite He2|exact Hadv].
  - apply (get_child_runs_from_loop static_data path e); [reflexivity|exact Hrun].
  - rewrite !filter_app, !(filter_reads_nil (find_reads _ _ _))
      by apply find_reads_are_reads.
    cbn [app]. rewrite Hfilter. f_equal. apply shift_keeps_kind.
Qed.

Lemma get_child_compose_witness :
  0 < 1 < logical_end (c_str "a.x.b") 5
  /\ c_str "a.x.b" 1 = DOT
  /\ c_str "a.x.b" (1 - 1) <> DOT
  /\ exists h1 w1 evs1 h w' evs2 evs,
      runs_to (get_child Demo.static_data Demo.root (c_str "a.x.b") 1)
              Demo.memory h1 w1 evs1 /\
      runs_to (get_child Demo.static_data h1 (advance (c_str "a.x.b") (1 + 1)) (5 - (1 + 1)))
              w1 h w' evs2 /\
      runs_to (get_child Demo.static_data Demo.root (c_str "a.x.b") 5)
              Demo.memory h w' evs /\
      filter is_lookup_or_getter evs
      = filter is_lookup_or_getter evs1
        ++ map (shift_event (1 + 1)) (filter is_lookup_or_getter evs2).
Proof.
  split; [vm_compute; lia|]. split; [reflexivity|]. split; [discriminate|].
  apply (get_child_compose Demo.static_data Demo.root (c_str "a.x.b") 5 1 Demo.memory).
  - vm_compute. lia.
  - reflexivity.
  - discriminate.
Defined.


(** * The traversal against the token-by-token resolution *)

Lemma get_Some_lt (s : string) (i : nat) (c : ascii) :
  String.get i s = Some c -> i < String.length s.
Proof.
  revert i. induction s as [|a s IH]; intros i; [discriminate|].
  destruct i as [|i]; cbn; [lia|]. intros H. apply IH in H. lia.
Qed.

Lemma get_lt_Some (s : string) (i : nat) :
  i < String.length s -> exists c, String.get i s = Some c.
Proof.
  revert i. induction s as [|a s IH]; intros i; cbn; [lia|].
  destruct i as [|i]; [now exists a|]. intros H. apply IH. lia.
Qed.

Lemma get_length_None (s : string) : String.get (String.length s) s = None.
Proof. induction s as [|a s IH]; [reflexivity|exact IH]. Qed.

Lemma string_length_append (s1 s2 : string) :
  String.length (s1 ++ s2) = String.length s1 + String.length s2.
Proof. induction s1 as [|a s1 IH]; cbn; [reflexivity|now rewrite IH]. Qed.

Lemma string_append_empty (s : string) : (s ++ "")%string = s.
Proof. induction s as [|a s IH]; cbn; [reflexivity|now rewrite IH]. Qed.

Lemma spells_c_str (s : string) : spells (c_str s) 0 s.
Proof. intros i c H. unfold c_str. cbn. now rewrite H. Qed.

Lemma spells_app_l path begin (s1 s2 : string) :
  spells path begin (s1 ++ s2) -> spells path begin s1.
Proof.
  intros H i c Hi. apply H.
  rewrite <- append_correct1; [exact Hi|]. now apply get_Some_lt in Hi.
Qed.

Lemma spells_app_r path begin (s1 s2 : string) :
  spells path begin (s1 ++ s2) -> spells path (begin + String.length s1) s2.
Proof.
  intros H i c Hi.
  replace (begin + String.length s1 + i) with (begin + (i + String.length s1)) by lia.
  apply H. now rewrite <- append_correct2.
Qed.

Lemma spells_tail path begin (a : ascii) (s : string) :
  spells path begin (String a s) -> spells path (begin + 1) s.
Proof.
  intros H i c Hi.
  replace (begin + 1 + i) with (begin + S i) by lia. now apply H.
Qed.

(** On a buffer that spells the token, the byte comparison of the lookup is
    [String.prefix]. *)
Lemma has_prefix_spells path (t : string) :
  forall begin (stored : string),
    spells path begin t ->
    has_prefix path begin stored (String.length t) = String.prefix t stored.
Proof.
  induction t as [|a t IH]; intros begin stored Hsp.
  - now destruct stored.
  - cbn [String.length has_prefix]. destruct stored as [|b r]; [reflexivity|].
    cbn [String.prefix].
    assert (Ha : path begin = a).
    { specialize (Hsp 0 a eq_refl). now rewrite Nat.add_0_r in Hsp. }
    rewrite Ha. destruct (ascii_dec a b) as [->|Hne].
    + rewrite Ascii.eqb_refl. cbn [andb].
      replace (S begin) with (begin + 1) by lia.
      apply IH. now apply spells_tail in Hsp.
    + apply Ascii.eqb_neq in Hne. now rewrite Hne.
Qed.

Lemma find_pointwise {A} (f g : A -> bool) (l : list A) :
  (forall x, f x = g x) -> find f l = find g l.
Proof.
  intros H. induction l as [|x l IH]; [reflexivity|].
  cbn. rewrite H, IH. reflexivity.
Qed.

(** The end of a token that the buffer spells. *)
Lemma first_index_token path begin (t : string) (n : nat) :
  spells path begin t ->
  (forall i c, String.get i t = Some c -> c <> DOT) ->
  String.length t <= n ->
  (String.length t < n -> path (begin + String.length t) = DOT) ->
  first_index path DOT n begin = begin + String.length t.
Proof.
  intros Hsp Hnodot Hlen Hdot. symmetry. apply first_index_unique.
  - lia.
  - intros i Hi.
    destruct (get_lt_Some t (i - begin)) as (c & Hc); [lia|].
    pose proof (Hsp _ _ Hc) as Hp.
    replace (begin + (i - begin)) with i in Hp by lia.
    rewrite Hp. now apply (Hnodot (i - begin)).
  - intros Hlt. apply Hdot. lia.
Qed.

Lemma join_path_cons (t : string) (ts : list string) :
  join_path (t :: ts)
  = (t ++ match ts with
          | [] => EmptyString
          | _ :: _ => String DOT (join_path ts)
          end)%string.
Proof. destruct ts; cbn [join_path]; [now rewrite string_append_empty|reflexivity]. Qed.

Section Resolve.

Context {W : Type}.
Variable static_data : TypeInfoRef -> TypeInfo W.
Variable path : nat -> ascii.

(** One iteration on a buffer that spells the token [t] followed by [tail],
    which is empty or starts with a separator. *)
Lemma get_child_loop_token (t tail : string) begin cur ti (w : W) fuel h w' rest :
  type_info_ cur = Some ti ->
  token_chars t ->
  spells path begin (t ++ tail) ->
  (tail = EmptyString \/ exists r, tail = String DOT r) ->
  0 < String.length t + String.length tail ->
  runs_to (get_child_loop static_data fuel path
             (Nat.min (begin + (String.length t + String.length tail))
                      (begin + String.length t + 1))
             (begin + (String.length t + String.length tail))
             (fst (step_result (find (fun p => String.prefix t (name p))
                                  (property_table_ (static_data ti))) cur w)))
          (snd (step_result (find (fun p => String.prefix t (name p))
                               (property_table_ (static_data ti))) cur w))
          h w' rest ->
  exists evs,
    runs_to (get_child_loop static_data (S fuel) path begin
               (begin + (String.length t + String.length tail)) cur) w h w' evs.
Proof.
  intros Hti Hchars Hsp Htail Hpos Hrest.
  pose proof (spells_app_l _ _ _ _ Hsp) as Hspt.
  pose proof (spells_app_r _ _ _ _ Hsp) as Hsptail.
  set (end_ := begin + (String.length t + String.length tail)) in *.
  assert (Hv : first_index path DOT (end_ - begin) begin = begin + String.length t).
  { apply first_index_token; auto.
    - intros i c Hc. now apply (Hchars i c).
    - unfold end_. lia.
    - unfold end_. intros Hlt.
      destruct Htail as [->|(r & ->)]; [cbn in Hlt; lia|].
      specialize (Hsptail 0 DOT eq_refl). now rewrite Nat.add_0_r in Hsptail. }
  assert (Hnul : forall i, i < String.length t -> path (begin + i) <> NUL).
  { intros i Hi. destruct (get_lt_Some t i Hi) as (c & Hc).
    rewrite (Hspt _ _ Hc). now apply (Hchars i c). }
  destruct (get_property_info_prefix_spec static_data ti path begin
              (String.length t) Hnul) as (levs & Hlook & _).
  assert (Hfind : first_with_prefix path begin (String.length t)
                    (property_table_ (static_data ti))
                  = find (fun p => String.prefix t (name p))
                      (property_table_ (static_data ti))).
  { apply find_pointwise. intros p. now apply has_prefix_spells. }
  rewrite Hfind in Hlook.
  eexists.
  apply (get_child_loop_step static_data path end_ fuel begin cur ti
           (find (fun p => String.prefix t (name p))
              (property_table_ (static_data ti)))
           (EvLookup ti begin (String.length t) :: levs) w h w' rest).
  - unfold end_. lia.
  - exact Hti.
  - rewrite Hv. replace (begin + String.length t - begin) with (String.length t) by lia.
    apply Hlook.
  - rewrite Hv. exact Hrest.
Qed.

Lemma get_child_loop_resolve (tokens : list string) :
  forall begin cur (w : W) fuel,
    Forall token_chars tokens ->
    spells path begin (join_path tokens) ->
    String.length (join_path tokens) <= fuel ->
    exists evs,
      runs_to (get_child_loop static_data fuel path begin
                 (begin + String.length (join_path tokens)) cur) w
              (fst (resolve static_data (effective_tokens tokens) cur w))
              (snd (resolve static_data (effective_tokens tokens) cur w)) evs.
Proof.
  induction tokens as [|t ts IH]; intros begin cur w fuel Hchars Hsp Hfuel.
  - exists []. apply get_child_loop_done. left. cbn. lia.
  - apply Forall_cons_iff in Hchars as [Ht Hts].
    destruct ts as [|t' ts'].
    + (* the last token *)
      destruct t as [|a t0].
      * exists []. apply get_child_loop_done. left. cbn. lia.
      * cbn [effective_tokens resolve join_path] in *.
        destruct (type_info_ cur) as [ti|] eqn:Hti.
        2:{ exists []. apply get_child_loop_done. now right. }
        destruct fuel as [|fuel]; [cbn in Hfuel; lia|].
        rewrite <- (string_append_empty (String a t0)) in Hsp.
        replace (String.length (String a t0))
          with (String.length (String a t0) + String.length EmptyString)
          by (cbn; lia).
        destruct (find (fun p => String.prefix (String a t0) (name p))
                    (property_table_ (static_data ti))) as [p|] eqn:Ef.
        -- apply (get_child_loop_token (String a t0) EmptyString begin cur ti w fuel
                    _ _ []); auto; [cbn; lia|].
           rewrite Ef. apply get_child_loop_done. left. cbn. lia.
        -- apply (get_child_loop_token (String a t0) EmptyString begin cur ti w fuel
                    _ _ []); auto; [cbn; lia|].
           rewrite Ef. apply get_child_loop_done. now right.
    + (* a token followed by a separator *)
      change (effective_tokens (t :: t' :: ts'))
        with (t :: effective_tokens (t' :: ts')).
      rewrite (join_path_cons t (t' :: ts')) in Hsp, Hfuel |- *.
      cbn [resolve].
      destruct (type_info_ cur) as [ti|] eqn:Hti.
      2:{ exists []. apply get_child_loop_done. now right. }
      rewrite string_length_append in Hfuel |- *.
      cbn [String.length] in Hfuel |- *.
      destruct fuel as [|fuel]; [lia|].
      assert (Hsp' : spells path (begin + String.length t + 1) (join_path (t' :: ts'))).
      { apply spells_app_r in Hsp. now apply spells_tail in Hsp. }
      destruct (find (fun p => String.prefix t (name p))
                  (property_table_ (static_data ti))) as [p|] eqn:Ef.
      * destruct (IH (begin + String.length t + 1)
                    (set_type_info (fst (getter p cur w)) (type_info p))
                    (snd (getter p cur w)) fuel Hts Hsp')
          as (rest & Hrest); [lia|].
        apply (get_child_loop_token t (String DOT (join_path (t' :: ts')))
                 begin cur ti w fuel _ _ rest); auto;
          [right; now eexists|cbn [String.length]; lia|].
        rewrite Ef. cbn [step_result fst snd String.length].
        replace (Nat.min (begin + (String.length t + S (String.length (join_path (t' :: ts')))))
                   (begin + String.length t + 1))
          with (begin + String.length t + 1) by lia.
        replace (begin + (String.length t + S (String.length (join_path (t' :: ts')))))
          with (begin + String.length t + 1 + String.length (join_path (t' :: ts')))
          by lia.
        exact Hrest.
      * apply (get_child_loop_token t (String DOT (join_path (t' :: ts')))
                 begin cur ti w fuel _ _ []); auto;
          [right; now eexists|cbn [String.length]; lia|].
        rewrite Ef. apply get_child_loop_done. now right.
Qed.

End Resolve.

Lemma join_path_no_nul (tokens : list string) :
  Forall token_chars tokens ->
  forall i c, String.get i (join_path tokens) = Some c -> c <> NUL.
Proof.
  induction tokens as [|t ts IH]; intros Hchars i c Hc; [discriminate|].
  apply Forall_cons_iff in Hchars as [Ht Hts].
  rewrite join_path_cons in Hc.
  destruct (Nat.lt_ge_cases i (String.length t)) as [Hlt|Hge].
  - rewrite <- append_correct1 in Hc by exact Hlt. now apply (Ht i c).
  - replace i with (i - String.length t + String.length t) in Hc by lia.
    rewrite <- append_correct2 in Hc.
    destruct ts as [|t' ts']; [now destruct (i - String.length t)|].
    destruct (i - String.length t) as [|j].
    + cbn in Hc. injection Hc as <-. discriminate.
    + cbn [String.get] in Hc. now apply (IH Hts j c).
Qed.

Lemma logical_end_c_str (s : string) (length : nat) :
  (forall i c, String.get i s = Some c -> c <> NUL) ->
  String.length s <= length ->
  logical_end (c_str s) length = String.length s.
Proof.
  intros Hnul Hlen. unfold logical_end. symmetry. apply first_index_unique.
  - lia.
  - intros i Hi. destruct (get_lt_Some s i) as (c & Hc); [lia|].
    unfold c_str. rewrite Hc. now apply (Hnul i c).
  - intros _. unfold c_str. now rewrite get_length_None.
Qed.

(** X8: on a path made of tokens joined by '.', given as a C string with any
    length bound that covers it, get_child returns what the token-by-token
    resolution returns.  Each token, empty ones included, selects in the
    table of the descriptor reached so far the first entry whose stored name
    has the token as a prefix; the entry's getter moves the handle; a token
    that selects nothing invalidates the handle and ends the resolution.
    Only an empty token in last position (a trailing '.', or the empty path)
    is never looked up. *)
Theorem get_child_resolves_tokens {W}
    (static_data : TypeInfoRef -> TypeInfo W) (self : Introspectable)
    (tokens : list string) (length : nat) (w : W) :
  Forall token_chars tokens ->
  String.length (join_path tokens) <= length ->
  exists evs,
    runs_to (get_child static_data self (c_str (join_path tokens)) length) w
            (fst (resolve static_data (effective_tokens tokens) self w))
            (snd (resolve static_data (effective_tokens tokens) self w)) evs.
Proof.
  intros Hchars Hlen.
  pose proof (logical_end_c_str (join_path tokens) length
                (join_path_no_nul tokens Hchars) Hlen) as He.
  destruct (get_child_loop_resolve static_data (c_str (join_path tokens)) tokens
              0 self w (String.length (join_path tokens)) Hchars
              (spells_c_str _) (Nat.le_refl _)) as (evs & Hrun).
  eexists.
  apply (get_child_runs_from_loop static_data (c_str (join_path tokens))
           (String.length (join_path tokens))); [now rewrite He|].
  exact Hrun.
Qed.

Lemma get_child_resolves_tokens_witness :
  Forall token_chars ["a"; ""; "b"; ""]%string
  /\ String.length (join_path ["a"; ""; "b"; ""]%string) <= 16
  /\ exists evs,
      runs_to (get_child Demo.static_data Demo.root
                 (c_str (join_path ["a"; ""; "b"; ""]%string)) 16) Demo.memory
              {| storage_ := [Byte.x03]; type_info_ := Some 3 |} Demo.memory evs.
Proof.
  assert (H : Forall token_chars ["a"; ""; "b"; ""]%string).
  { repeat constructor; try discriminate;
      destruct i as [|i]; cbn in H; try discriminate;
      injection H as <-; discriminate. }
  split; [exact H|]. split; [vm_compute; lia|].
  apply (get_child_resolves_tokens Demo.static_data Demo.root
           ["a"; ""; "b"; ""]%string 16 Demo.memory H).
  vm_compute. lia.
Defined.

(** * Writing a leaf and reading it back *)

(** X9: on a handle whose descriptor is the read-write adapter, a set_string
    whose buffer parses to [v], followed by a get_string, returns true and
    then the formatting of [v], provided the wrapped property reads back
    what was exchanged into it and the cast to [T] and back is the identity
    on [v]; the application memory left is the one [exchange] produced. *)
Theorem set_string_then_get_string {W T U Property : Type}
    (as_Property : list Byte.byte -> Property)
    (read : Property -> W -> T) (exchange : Property -> T -> W -> W)
    (to_underlying : T -> U) (of_underlying : U -> T)
    (to_string : U -> list ascii -> nat -> bool * list ascii)
    (from_string : list ascii -> nat -> option U)
    (static_data : TypeInfoRef -> TypeInfo W) (self : Introspectable)
    (ti : TypeInfoRef) (buffer out : list ascii) (length capacity : nat)
    (v : U) (w : W) :
  type_info_ self = Some ti ->
  static_data ti = FibrePropertyTypeInfo_rw_singleton as_Property read exchange
                     to_underlying of_underlying to_string from_string ->
  from_string buffer length = Some v ->
  read (as_Property (storage_ self))
       (exchange (as_Property (storage_ self)) (of_underlying v) w) = of_underlying v ->
  to_underlying (of_underlying v) = v ->
  runs_to (bind (set_string static_data self buffer length)
             (fun ok => bind (get_string static_data self out capacity)
                          (fun r => ret (ok, r))))
          w (true, to_string v out capacity)
          (exchange (as_Property (storage_ self)) (of_underlying v) w)
          [EvSetString ti; EvGetString ti].
Proof.
  intros Hti Hsd Hparse Hread Hcast lg.
  unfold bind, set_string, get_string, tell, lift_world, ret, add_log.
  rewrite Hti, Hsd. cbn. unfold rw_set_string, rw_get_string.
  rewrite Hparse. cbn. rewrite Hread, Hcast.
  now rewrite <- app_assoc.
Qed.

Lemma set_string_then_get_string_witness :
  type_info_ {| storage_ := [Byte.x02]; type_info_ := Some 3 |} = Some 3
  /\ Demo.static_data 3 = Demo.leaf_int
  /\ Demo.from_string ["7"; "!"]%char 1 = Some 7%Z
  /\ Demo.read 2 (Demo.exchange 2 7%Z Demo.memory) = 7%Z
  /\ runs_to (bind (set_string Demo.static_data
                      {| storage_ := [Byte.x02]; type_info_ := Some 3 |}
                      ["7"; "!"]%char 1)
                (fun ok => bind (get_string Demo.static_data
                                   {| storage_ := [Byte.x02]; type_info_ := Some 3 |}
                                   ["?"; "?"]%char 2)
                             (fun r => ret (ok, r))))
             Demo.memory (true, (true, ["7"; "?"]%char)) [10; 20; 7; 40]%Z
             [EvSetString 3; EvGetString 3].
Proof.
  split; [reflexivity|]. split; [reflexivity|]. split; [reflexivity|].
  split; [reflexivity|].
  apply (set_string_then_get_string Demo.as_Property Demo.read Demo.exchange
           (fun v : Z => v) (fun v : Z => v) Demo.to_string Demo.from_string
           Demo.static_data {| storage_ := [Byte.x02]; type_info_ := Some 3 |}
           3 ["7"; "!"]%char ["?"; "?"]%char 1 2 7%Z Demo.memory);
    reflexivity.
Defined.

(** * Work done by one traversal *)

Lemma filter_reads (f : Event -> bool) (evs : list Event) :
  (forall i, f (EvRead i) = false) ->
  forallb is_read evs = true -> filter f evs = [].
Proof.
  intros Hf. induction evs as [|e evs IH]; [reflexivity|].
  cbn. intros H. apply andb_prop in H as [He Hevs].
  rewrite (IH Hevs). destruct e; try discriminate. now rewrite Hf.
Qed.

Section Work.

Context {W : Type}.
Variable static_data : TypeInfoRef -> TypeInfo W.
Variable path : nat -> ascii.
Variable end_ : nat.

Lemma get_child_loop_work fuel :
  forall begin cur (w : W),
    end_ - begin <= fuel ->
    exists h w' evs,
      runs_to (get_child_loop static_data fuel path begin end_ cur) w h w' evs /\
      List.length (filter is_lookup evs) <= end_ - begin /\
      List.length (filter is_getter_call evs) <= List.length (filter is_lookup evs).
Proof.
  induction fuel as [|fuel IH]; intros begin cur w Hfuel.
  - exists cur, w, []. split; [|cbn; lia].
    apply get_child_loop_done. left. lia.
  - destruct (Nat.lt_ge_cases begin end_) as [Hlt|Hge].
    2:{ exists cur, w, []. split; [|cbn; lia].
        apply get_child_loop_done. now left. }
    destruct (type_info_ cur) as [ti|] eqn:Hti.
    2:{ exists cur, w, []. split; [|cbn; lia].
        apply get_child_loop_done. now right. }
    pose proof (first_index_bounds path DOT (end_ - begin) begin) as Hb.
    destruct (get_property_info_runs static_data path ti begin
                (first_index path DOT (end_ - begin) begin - begin))
      as (r & levs & Hlook & _ & Hreads & _).
    destruct (IH (Nat.min end_ (first_index path DOT (end_ - begin) begin + 1))
                (fst (step_result r cur w)) (snd (step_result r cur w)))
      as (h & w' & rest & Hrest & Hcount & Hgetters); [lia|].
    exists h, w'. eexists. split.
    + eapply get_child_loop_step; eauto.
    + rewrite !filter_app.
      rewrite !(filter_reads _ (find_reads _ _ _)) by
        (try reflexivity; apply find_reads_are_reads).
      cbn [app filter is_lookup is_getter_call].
      rewrite !(filter_reads _ levs) by (try reflexivity; exact Hreads).
      destruct r as [p|]; cbn [app filter is_lookup is_getter_call List.length]; lia.
Qed.

End Work.

(** X10: one call of get_child makes at most as many lookups as there are
    bytes before the logical end of the path, and calls at most one getter
    per lookup. *)
Theorem get_child_bounded_work {W}
    (static_data : TypeInfoRef -> TypeInfo W) (self : Introspectable)
    (path : nat -> ascii) (length : nat) (w : W) :
  exists h w' evs,
    runs_to (get_child static_data self path length) w h w' evs /\
    List.length (filter is_lookup evs) <= logical_end path length /\
    List.length (filter is_getter_call evs) <= List.length (filter is_lookup evs).
Proof.
  destruct (get_child_loop_work static_data path (logical_end path length)
              (logical_end path length) 0 self w)
    as (h & w' & evs & Hrun & Hcount & Hgetters); [lia|].
  exists h, w'. eexists. split.
  - eapply get_child_runs_from_loop; [reflexivity|exact Hrun].
  - rewrite !filter_app.
    rewrite !(filter_reads _ (find_reads _ _ _)) by
      (try reflexivity; apply find_reads_are_reads).
    cbn [app]. lia.
Qed.

(** * The read-only adapter *)



(** * When the lookup is exact *)

Lemma prefix_same (t : string) : String.prefix t t = true.
Proof.
  induction t as [|a t IH]; [reflexivity|].
  cbn. destruct (ascii_dec a a) as [_|Hne]; [exact IH|contradiction].
Qed.

Lemma find_pointwise_in {A} (f g : A -> bool) (l : list A) :
  (forall x, In x l -> f x = g x) -> find f l = find g l.
Proof.
  induction l as [|x l IH]; intros H; [reflexivity|].
  cbn. rewrite (H x) by now left.
  rewrite IH; [reflexivity|]. intros y Hy. apply H. now right.
Qed.

(** X12: where no stored name of the table properly extends the token, the
    lookup is exact: get_property_info returns the first entry whose stored
    name equals the token, and none when the token is not a stored name. *)
Theorem get_property_info_exact_when_unambiguous {W}
    (static_data : TypeInfoRef -> TypeInfo W) (this : TypeInfoRef)
    (path : nat -> ascii) (name_ : nat) (t : string) :
  spells path name_ t ->
  (forall i c, String.get i t = Some c -> c <> NUL) ->
  (forall q, In q (property_table_ (static_data this)) ->
             String.prefix t (name q) = true -> name q = t) ->
  exists evs,
    forall w : W,
      runs_to (get_property_info static_data this path name_ (String.length t)) w
              (find (fun q => String.eqb (name q) t) (property_table_ (static_data this)))
              w (EvLookup this name_ (String.length t) :: evs).
Proof.
  intros Hsp Hnul Hexact.
  assert (Hnul' : forall i, i < String.length t -> path (name_ + i) <> NUL).
  { intros i Hi. destruct (get_lt_Some t i Hi) as (c & Hc).
    rewrite (Hsp _ _ Hc). now apply (Hnul i c). }
  destruct (get_property_info_prefix_spec static_data this path name_
              (String.length t) Hnul') as (evs & Hlook & _).
  exists evs. intros w.
  replace (find (fun q => String.eqb (name q) t) (property_table_ (static_data this)))
    with (first_with_prefix path name_ (String.length t)
            (property_table_ (static_data this))); [apply Hlook|].
  apply find_pointwise_in. intros q Hq.
  rewrite (has_prefix_spells path t name_ (name q) Hsp).
  destruct (String.eqb_spec (name q) t) as [->|Hne].
  - apply prefix_same.
  - destruct (String.prefix t (name q)) eqn:Ep; [|reflexivity].
    exfalso. apply Hne. now apply Hexact.
Qed.

Lemma get_property_info_exact_when_unambiguous_witness :
  spells (c_str "a.x") 2 "x"
  /\ (forall i c, String.get i "x" = Some c -> c <> NUL)
  /\ (forall q, In q (property_table_ (Demo.static_data 1)) ->
                String.prefix "x" (name q) = true -> name q = "x"%string)
  /\ exists evs,
      forall w : Demo.World,
        runs_to (get_property_info Demo.static_data 1 (c_str "a.x") 2 (String.length "x")) w
                (Some Demo.prop_x) w (EvLookup 1 2 (String.length "x") :: evs).
Proof.
  assert (H1 : spells (c_str "a.x") 2 "x").
  { intros [|i] c H; cbn in H; [now injection H as <-|discriminate]. }
  assert (H2 : forall i c, String.get i "x" = Some c -> c <> NUL).
  { intros [|i] c H; cbn in H; [injection H as <-|]; discriminate. }
  assert (H3 : forall q, In q (property_table_ (Demo.static_data 1)) ->
                 String.prefix "x" (name q) = true -> name q = "x"%string).
  { cbn. intros q [<-|[]] _. reflexivity. }
  split; [exact H1|]. split; [exact H2|]. split; [exact H3|].
  exact (get_property_info_exact_when_unambiguous Demo.static_data 1 (c_str "a.x") 2
           "x" H1 H2 H3).
Defined.
